(** * The Huffman coding engine of [huffman.py], embedded and verified

    The development follows the source file function by function:
    [HuffmanNode], [build_huffman_tree], [generate_huffman_codes],
    [calculate_average_length], [check_kraft_inequality], [encode_string]
    and [decode_string].

    Modelling choices, all taken from the source:
    - a Python [str] is a [string]; iterating over it yields its characters,
      and a character used as a dictionary key is the one-character string
      (the characters are the 256 of [ascii]; the module never looks at a
      character other than to compare it);
    - a [Dict[str, str]] is an association list in insertion order with
      unique keys (Python dictionaries keep insertion order, and
      [check_kraft_inequality] sums floats in that order);
    - a raised exception is a value of [exception], one constructor per
      [raise] site of the module plus [KeyError] for an unguarded lookup;
    - the tree builder only compares weights with [<] and adds them with [+],
      so it is written over an arbitrary weight type with these two
      operations, and run on the kernel's binary64 floats ([build_float]);
      the metrics, which are float computations, use these floats directly;
    - [nodes.sort(key=...)] is the stable sort by [<] on the keys, written as
      an insertion sort; on keys that [<] orders as a strict weak order
      (floats other than NaN) the stable sort is unique. *)

From Stdlib Require Import List String Ascii Bool Arith ZArith Lia.
From Stdlib Require Import Permutation Sorted.
From Stdlib Require Import Floats.
From Equations.Prop Require Import Equations Logic.
Import ListNotations.

Set Implicit Arguments.
Set Warnings "-register-all".

Local Open Scope string_scope.
Local Open Scope list_scope.

(** String concatenation is written [s +++ t]; [++] is kept for lists. *)
Local Infix "+++" := String.append (right associativity, at level 60).

(** ** Python strings *)

(** [char] as a dictionary key or as a piece of output: the string of
    length one. *)
Definition str_of_char (c : ascii) : string := String c EmptyString.

(** [s.startswith(p)] in list form: [p] is a prefix of [s]. *)
Definition is_prefix (p s : string) : Prop := exists rest, s = p +++ rest.

(** Every character of a codeword is the digit ['0'] or ['1']. *)
Fixpoint binary_digits (s : string) : Prop :=
  match s with
  | EmptyString => True
  | String c rest => (c = "0"%char \/ c = "1"%char) /\ binary_digits rest
  end.

(** ** Exceptions and results *)

(** One constructor per [raise] statement of [huffman.py]; the payload is what
    the message interpolates. *)
Inductive exception : Type :=
  | ValueError_count_mismatch
      (* "Количество символов и вероятностей должно совпадать" *)
  | ValueError_empty_tree
      (* "Дерево Хаффмана не может быть пустым" *)
  | ValueError_negative_probability
      (* "Вероятности не могут быть отрицательными" *)
  | ValueError_unknown_symbol (char : ascii)
      (* f"Символ '{char}' отсутствует в алфавите" *)
  | ValueError_invalid_bit (bit : ascii)
      (* f"Недопустимый бит в закодированной строке: '{bit}'" *)
  | ValueError_malformed_tree
      (* "Некорректное дерево Хаффмана" *)
  | ValueError_incomplete
      (* "Закодированная строка некорректна или неполна" *)
  | KeyError (key : string)
      (* raised by [codes[symbol]] when [symbol] is not a key *)
  | IndexError
      (* raised by [nodes.pop(0)] on an empty list and by [probs[i]] out of
         range *).

Inductive result (A : Type) : Type :=
  | Ok (value : A)
  | Raise (e : exception).

Arguments Ok {A} value.
Arguments Raise {A} e.

(** ** Dictionaries [Dict[str, str]] *)

Definition dict : Type := list (string * string).

(** [key in d] *)
Fixpoint dict_mem (key : string) (d : dict) : bool :=
  match d with
  | [] => false
  | (k, _) :: rest => if String.eqb k key then true else dict_mem key rest
  end.

(** [d[key]], [None] standing for [KeyError] *)
Fixpoint dict_get (key : string) (d : dict) : option string :=
  match d with
  | [] => None
  | (k, v) :: rest => if String.eqb k key then Some v else dict_get key rest
  end.

(** [d[key] = value]: an existing key keeps its place and takes the new value,
    a new key is appended. *)
Fixpoint dict_set (key value : string) (d : dict) : dict :=
  match d with
  | [] => [(key, value)]
  | (k, v) :: rest =>
      if String.eqb k key then (k, value) :: rest
      else (k, v) :: dict_set key value rest
  end.

Definition dict_keys (d : dict) : list string := map fst d.
Definition dict_values (d : dict) : list string := map snd d.

(** ** The tree builder and the code generator, over a weight type *)

Section Huffman.

(** The weights: Python floats in the source, used only through [<]
    ([HuffmanNode.__lt__], the sort key) and [+] (the parent's weight). *)
Variable weight : Type.
Variable weight_lt : weight -> weight -> bool.
Variable weight_add : weight -> weight -> weight.

(** [class HuffmanNode]: [symbol] is [None] for internal nodes, and both
    children are optional references. *)
Inductive HuffmanNode : Type :=
  | Node (symbol : option string) (prob : weight)
         (left right : option HuffmanNode).

Definition symbol (n : HuffmanNode) : option string :=
  match n with Node s _ _ _ => s end.
Definition prob (n : HuffmanNode) : weight :=
  match n with Node _ p _ _ => p end.
Definition left (n : HuffmanNode) : option HuffmanNode :=
  match n with Node _ _ l _ => l end.
Definition right (n : HuffmanNode) : option HuffmanNode :=
  match n with Node _ _ _ r => r end.

(** [HuffmanNode(symbol, prob)]: the constructor leaves both children
    [None]. *)
Definition new_node (s : option string) (p : weight) : HuffmanNode :=
  Node s p None None.

(** *** [nodes.sort(key=lambda x: x.prob)]

    Python's sort is stable and compares keys with [<] only.  The sort is
    written over any element type with a key, so that the same function
    sorts the nodes and, in the proofs, nodes tagged with their insertion
    rank. *)
Section Sort.
Variable A : Type.
Variable key : A -> weight.

Fixpoint insert_by (x : A) (l : list A) : list A :=
  match l with
  | [] => [x]
  | y :: rest =>
      if weight_lt (key y) (key x) then y :: insert_by x rest
      else x :: y :: rest
  end.

Fixpoint sort_by (l : list A) : list A :=
  match l with
  | [] => []
  | x :: rest => insert_by x (sort_by rest)
  end.
End Sort.

(** *** [build_huffman_tree] *)

(** The [for i in range(len(symbols))] loop that creates one node per
    symbol; it runs after the length check, so both lists have the same
    length. *)
Fixpoint initial_nodes (symbols : list string) (probs : list weight)
  : list HuffmanNode :=
  match symbols, probs with
  | s :: symbols', p :: probs' =>
      new_node (Some s) p :: initial_nodes symbols' probs'
  | _, _ => []
  end.

(** The parent created in the loop body: [HuffmanNode(None, left.prob +
    right.prob)] with both children assigned. *)
Definition merge_nodes (l r : HuffmanNode) : HuffmanNode :=
  Node None (weight_add (prob l) (prob r)) (Some l) (Some r).

Lemma length_insert_by (A : Type) (key : A -> weight) (x : A) (l : list A) :
  List.length (insert_by key x l) = S (List.length l).
Proof.
  induction l as [|y rest IH]; simpl; [reflexivity|].
  destruct (weight_lt (key y) (key x)); simpl; [rewrite IH|]; reflexivity.
Qed.

Lemma length_sort_by (A : Type) (key : A -> weight) (l : list A) :
  List.length (sort_by key l) = List.length l.
Proof.
  induction l as [|x rest IH]; simpl; [reflexivity|].
  rewrite length_insert_by, IH. reflexivity.
Qed.

(** The [while len(nodes) > 1] loop: sort, pop the first two nodes, append
    their parent.  Each iteration shortens the list by one, which is the
    termination measure.  [nodes.pop(0)] on an empty list would raise
    [IndexError]; the loop condition rules it out
    ([merge_loop_no_index_error]). *)
Equations? merge_loop (nodes : list HuffmanNode)
  : result (list HuffmanNode) by wf (List.length nodes) lt :=
  merge_loop nodes with Nat.ltb 1 (List.length nodes) := {
    | false => Ok nodes
    | true with inspect (sort_by prob nodes) := {
        | exist _ (l :: r :: rest) Hsorted =>
            merge_loop (rest ++ [merge_nodes l r])
        | exist _ _ _ => Raise IndexError } }.
Proof.
  rewrite <- (length_sort_by prob nodes), Hsorted, length_app. simpl. lia.
Qed.

(** [return nodes[0] if nodes else None] *)
Definition first_or_none (nodes : list HuffmanNode) : option HuffmanNode :=
  match nodes with
  | [] => None
  | n :: _ => Some n
  end.

Definition build_huffman_tree (symbols : list string) (probs : list weight)
  : result (option HuffmanNode) :=
  if negb (Nat.eqb (List.length symbols) (List.length probs)) then
    Raise ValueError_count_mismatch
  else
    match merge_loop (initial_nodes symbols probs) with
    | Ok nodes => Ok (first_or_none nodes)
    | Raise e => Raise e
    end.

(** *** [generate_huffman_codes] *)

(** The inner function [traverse], which writes into the enclosing [codes]
    dictionary; the dictionary is threaded through.  [traverse(None, _)]
    returns at once, which is the [None] branch of each child. *)
Fixpoint traverse (node : HuffmanNode) (current_code : string) (codes : dict)
  : dict :=
  match node with
  | Node (Some s) _ _ _ => dict_set s current_code codes
  | Node None _ l r =>
      let codes1 :=
        match l with
        | Some n => traverse n (current_code +++ "0") codes
        | None => codes
        end in
      match r with
      | Some n => traverse n (current_code +++ "1") codes1
      | None => codes1
      end
  end.

Definition generate_huffman_codes (root : option HuffmanNode) : result dict :=
  match root with
  | None => Raise ValueError_empty_tree
  | Some n => Ok (traverse n "" [])
  end.

(** *** [decode_string]

    The state of the loop: the output so far and the reference
    [current_node].  [HuffmanNode] defines no [__eq__], so the final test
    [current_node != root] compares object identity.  A reference obtained
    by descending to a child is never the root object itself (the tree is a
    finite structure without sharing), so the reference is the root exactly
    when no bit has been read since the start or since the last reset
    [current_node = root]; the flag [at_root] records this. *)
Record decoder_state : Type := mk_state {
  decoded : string;
  current_node : HuffmanNode;
  at_root : bool
}.

(** After [current_node = current_node.left] (or [.right]): the checks on
    the node reached. *)
Definition arrive (root : HuffmanNode) (st : decoder_state)
    (child : option HuffmanNode) : result decoder_state :=
  match child with
  | None => Raise ValueError_malformed_tree
  | Some n =>
      match symbol n with
      | Some s => Ok (mk_state (decoded st +++ s) root true)
      | None => Ok (mk_state (decoded st) n false)
      end
  end.

(** The body of [for bit in encoded_string]. *)
Definition decode_step (root : HuffmanNode) (st : decoder_state)
    (bit : ascii) : result decoder_state :=
  if Ascii.eqb bit "0" then arrive root st (left (current_node st))
  else if Ascii.eqb bit "1" then arrive root st (right (current_node st))
  else Raise (ValueError_invalid_bit bit).

(** The whole [for] loop; an exception leaves it at once. *)
Fixpoint decode_bits (root : HuffmanNode) (st : decoder_state)
    (bits : string) : result decoder_state :=
  match bits with
  | EmptyString => Ok st
  | String bit rest =>
      match decode_step root st bit with
      | Ok st' => decode_bits root st' rest
      | Raise e => Raise e
      end
  end.

Definition initial_state (root : HuffmanNode) : decoder_state :=
  mk_state "" root true.

Definition decode_string (encoded_string : string) (root : HuffmanNode)
  : result string :=
  match decode_bits root (initial_state root) encoded_string with
  | Ok st =>
      if at_root st then Ok (decoded st) else Raise ValueError_incomplete
  | Raise e => Raise e
  end.

End Huffman.

(** ** [encode_string] *)

Fixpoint encode_loop (input_string : string) (codes : dict) (encoded : string)
  : result string :=
  match input_string with
  | EmptyString => Ok encoded
  | String char rest =>
      if dict_mem (str_of_char char) codes then
        match dict_get (str_of_char char) codes with
        | Some code => encode_loop rest codes (encoded +++ code)
        | None => Raise (KeyError (str_of_char char))
        end
      else Raise (ValueError_unknown_symbol char)
  end.

Definition encode_string (input_string : string) (codes : dict)
  : result string :=
  encode_loop input_string codes "".

(** ** The metrics, on binary64 floats *)

(** [float(n)] for a length [n]; exact below [2^53]. *)
Definition float_of_len (n : nat) : float :=
  PrimFloat.of_uint63 (Uint63.of_Z (Z.of_nat n)).

(** The [for i, symbol in enumerate(symbols)] loop of
    [calculate_average_length]: [probs[i]] is read first, then
    [codes[symbol]]. *)
Fixpoint average_loop (codes : dict) (symbols : list string)
    (probs : list float) (avg_len : float) : result float :=
  match symbols with
  | [] => Ok avg_len
  | symbol :: symbols' =>
      match probs with
      | [] => Raise IndexError
      | p :: probs' =>
          match dict_get symbol codes with
          | None => Raise (KeyError symbol)
          | Some code =>
              average_loop codes symbols' probs'
                (avg_len + p * float_of_len (String.length code))%float
          end
      end
  end.

Definition calculate_average_length (codes : dict) (symbols : list string)
    (probs : list float) : result float :=
  if negb (Nat.eqb (List.length symbols) (List.length probs)) then
    Raise ValueError_count_mismatch
  else average_loop codes symbols probs 0%float.

(** [2 ** (-n)]: the power of two is exact, and underflows to zero past the
    subnormal range. *)
Definition pow2_neg (n : nat) : float := Z.ldexp 1%float (- Z.of_nat n).

(** The accumulation [kraft_sum += 2 ** (-len(code))] over [codes.values()],
    in insertion order. *)
Definition kraft_loop (values : list string) (kraft_sum : float) : float :=
  fold_left (fun acc code => (acc + pow2_neg (String.length code))%float)
            values kraft_sum.

Definition check_kraft_inequality (codes : dict) : bool * float :=
  let kraft_sum := kraft_loop (dict_values codes) 0%float in
  ((kraft_sum <=? 1)%float, kraft_sum).

(** ** The builder on Python floats *)

Definition float_tree : Type := HuffmanNode float.

Definition build_float (symbols : list string) (probs : list float)
  : result (option float_tree) :=
  build_huffman_tree PrimFloat.ltb PrimFloat.add symbols probs.

(** * Properties *)

(** ** Strings *)

Lemma append_nil_r (s : string) : s +++ "" = s.
Proof. induction s as [|c s IH]; simpl; [|rewrite IH]; reflexivity. Qed.

Lemma append_assoc (s t u : string) : (s +++ t) +++ u = s +++ t +++ u.
Proof. induction s as [|c s IH]; simpl; [|rewrite IH]; reflexivity. Qed.

Lemma length_append (s t : string) :
  String.length (s +++ t) = String.length s + String.length t.
Proof. induction s as [|c s IH]; simpl; [|rewrite IH]; reflexivity. Qed.

(** ** Dictionaries *)

Lemma dict_mem_get (key : string) (d : dict) :
  dict_mem key d = true <-> exists v, dict_get key d = Some v.
Proof.
  induction d as [|[k v] rest IH]; simpl.
  - split; [discriminate | intros [v H]; discriminate].
  - destruct (String.eqb k key); [|exact IH].
    split; [exists v; reflexivity | reflexivity].
Qed.

Lemma dict_mem_false_get (key : string) (d : dict) :
  dict_mem key d = false <-> dict_get key d = None.
Proof.
  induction d as [|[k v] rest IH]; simpl.
  - split; reflexivity.
  - destruct (String.eqb k key); [|exact IH].
    split; discriminate.
Qed.

Lemma dict_mem_keys (key : string) (d : dict) :
  dict_mem key d = true <-> In key (dict_keys d).
Proof.
  induction d as [|[k v] rest IH]; simpl.
  - split; [discriminate | contradiction].
  - destruct (String.eqb_spec k key) as [->|Hne].
    + split; auto.
    + rewrite IH. split; [auto | intros [H|H]; [contradiction | exact H]].
Qed.

Lemma dict_get_set_same (key value : string) (d : dict) :
  dict_get key (dict_set key value d) = Some value.
Proof.
  induction d as [|[k v] rest IH]; simpl.
  - rewrite String.eqb_refl. reflexivity.
  - destruct (String.eqb k key) eqn:E; simpl; rewrite E;
      [reflexivity | exact IH].
Qed.

Lemma dict_get_set_other (key key' value : string) (d : dict) :
  key <> key' -> dict_get key' (dict_set key value d) = dict_get key' d.
Proof.
  intros Hne. induction d as [|[k v] rest IH]; simpl.
  - destruct (String.eqb_spec key key'); [contradiction | reflexivity].
  - destruct (String.eqb_spec k key) as [->|Hk]; simpl.
    + destruct (String.eqb_spec key key'); [contradiction | reflexivity].
    + destruct (String.eqb k key'); [reflexivity | exact IH].
Qed.

Lemma dict_keys_set (key value : string) (d : dict) :
  dict_keys (dict_set key value d) =
  if dict_mem key d then dict_keys d else dict_keys d ++ [key].
Proof.
  induction d as [|[k v] rest IH]; simpl; [reflexivity|].
  destruct (String.eqb k key); simpl; [reflexivity|].
  rewrite IH. destruct (dict_mem key rest); reflexivity.
Qed.

Lemma dict_set_NoDup (key value : string) (d : dict) :
  NoDup (dict_keys d) -> NoDup (dict_keys (dict_set key value d)).
Proof.
  intros Hnd. rewrite dict_keys_set.
  destruct (dict_mem key d) eqn:E; [exact Hnd|].
  apply NoDup_app; [exact Hnd | repeat constructor; simpl; tauto |].
  intros x Hx [<-|[]].
  apply dict_mem_keys in Hx. congruence.
Qed.

(** With unique keys, the entries are exactly the lookups. *)
Lemma dict_get_In (key value : string) (d : dict) :
  NoDup (dict_keys d) -> (In (key, value) d <-> dict_get key d = Some value).
Proof.
  induction d as [|[k v] rest IH]; simpl; intros Hnd.
  - split; [contradiction | discriminate].
  - inversion Hnd as [|? ? Hnotin Hnd']; subst.
    destruct (String.eqb_spec k key) as [->|Hne].
    + split.
      * intros [H|H]; [congruence|].
        exfalso. apply Hnotin. apply (in_map fst) in H. exact H.
      * intros H. left. congruence.
    + rewrite <- (IH Hnd').
      split; [intros [H|H]; [congruence | exact H] | auto].
Qed.

(** ** Trees and the code table *)

Section TreeProperties.

Variable weight : Type.

Local Abbreviation node := (HuffmanNode weight).

Definition opt_all (P : node -> Prop) (o : option node) : Prop :=
  match o with
  | Some n => P n
  | None => True
  end.

(** Induction on a node, with the hypothesis for each child that is
    present. *)
Lemma HuffmanNode_induction (P : node -> Prop) :
  (forall s p l r, opt_all P l -> opt_all P r -> P (Node s p l r)) ->
  forall n, P n.
Proof.
  intros H. fix IH 1. intros [s p l r].
  apply H; [destruct l as [n|] | destruct r as [n|]]; simpl;
    first [exact (IH n) | exact I].
Qed.

(** The symbols [traverse] writes, in the order it visits them: a node with a
    symbol is a leaf whatever its children are. *)
Fixpoint leaf_symbols (n : node) : list string :=
  match n with
  | Node (Some s) _ _ _ => [s]
  | Node None _ l r =>
      match l with Some n' => leaf_symbols n' | None => [] end ++
      match r with Some n' => leaf_symbols n' | None => [] end
  end.

(** [reaches n path k]: from [n], following [path] (['0'] to the left child,
    ['1'] to the right child) through nodes without a symbol ends on a node
    whose symbol is [k]. *)
Inductive reaches : node -> string -> string -> Prop :=
  | reaches_here k p l r : reaches (Node (Some k) p l r) "" k
  | reaches_left p n r path k :
      reaches n path k ->
      reaches (Node None p (Some n) r) (String "0" path) k
  | reaches_right p l n path k :
      reaches n path k ->
      reaches (Node None p l (Some n)) (String "1" path) k.

Lemma reaches_binary_digits (n : node) (path k : string) :
  reaches n path k -> binary_digits path.
Proof. induction 1; simpl; auto. Qed.

Lemma reaches_internal_nonempty (n : node) (path k : string) :
  reaches n path k -> symbol n = None -> path <> "".
Proof. destruct 1; simpl; intros; discriminate. Qed.

(** A path that reaches a symbol cannot be extended to reach one: the walk is
    deterministic and stops at the first node with a symbol. *)
Lemma reaches_prefix (n : node) (path k : string) :
  reaches n path k ->
  forall rest k', reaches n (path +++ rest) k' -> rest = "" /\ k = k'.
Proof.
  induction 1 as [k p l r | p n r path k _ IH | p l n path k _ IH];
    intros rest k' H'; simpl in H'; inversion H'; subst; auto.
Qed.

Lemma traverse_mem (n : node) :
  forall code codes key,
    dict_mem key (traverse n code codes) = true <->
    dict_mem key codes = true \/ In key (leaf_symbols n).
Proof.
  induction n as [s p l r IHl IHr] using HuffmanNode_induction.
  intros code codes key. destruct s as [s|]; simpl.
  - rewrite !dict_mem_keys, dict_keys_set.
    destruct (dict_mem s codes) eqn:E.
    + apply dict_mem_keys in E. intuition (subst; auto).
    + rewrite in_app_iff. simpl. intuition (subst; auto).
  - rewrite in_app_iff.
    destruct l as [nl|], r as [nr|]; simpl in *;
      rewrite ?IHr, ?IHl; tauto.
Qed.

Lemma traverse_NoDup (n : node) :
  forall code codes,
    NoDup (dict_keys codes) -> NoDup (dict_keys (traverse n code codes)).
Proof.
  induction n as [s p l r IHl IHr] using HuffmanNode_induction.
  intros code codes Hnd. destruct s as [s|]; simpl.
  - apply dict_set_NoDup. exact Hnd.
  - destruct l as [nl|], r as [nr|]; simpl in *; auto.
Qed.

(** Every entry written by [traverse] is the current code followed by a path
    that reaches the entry's symbol. *)
Lemma traverse_get (n : node) :
  forall code codes key c,
    dict_get key (traverse n code codes) = Some c ->
    dict_get key codes = Some c \/
    exists path, c = code +++ path /\ reaches n path key.
Proof.
  induction n as [s p l r IHl IHr] using HuffmanNode_induction.
  intros code codes key c. destruct s as [s|]; simpl.
  - destruct (string_dec s key) as [->|Hne].
    + rewrite dict_get_set_same. intros [= <-]. right.
      exists "". rewrite append_nil_r. split; [reflexivity | constructor].
    + rewrite (dict_get_set_other _ _ Hne). auto.
  - assert (Hl : forall codes0,
               dict_get key
                 (match l with
                  | Some n => traverse n (code +++ "0") codes0
                  | None => codes0
                  end) = Some c ->
               dict_get key codes0 = Some c \/
               exists path, c = code +++ path /\
                            reaches (Node None p l r) path key).
    { intros codes0 H. destruct l as [nl|]; [|auto].
      apply IHl in H. destruct H as [H|[path [-> H]]]; [auto|].
      right. exists (String "0" path). rewrite append_assoc.
      split; [reflexivity | constructor; exact H]. }
    intros H. destruct r as [nr|]; [|apply Hl; exact H].
    apply IHr in H. destruct H as [H|[path [-> H]]]; [apply Hl; exact H|].
    right. exists (String "1" path). rewrite append_assoc.
    split; [reflexivity | constructor; exact H].
Qed.

(** The table of a tree: unique keys, the keys are the leaf symbols, and each
    codeword is a path to a node carrying its key. *)
Lemma generate_table (n : node) :
  let table := traverse n "" [] in
  NoDup (dict_keys table) /\
  (forall key, In key (dict_keys table) <-> In key (leaf_symbols n)) /\
  (forall key c, In (key, c) table -> reaches n c key).
Proof.
  simpl. assert (Hnd : NoDup (dict_keys (traverse n "" []))).
  { apply traverse_NoDup. constructor. }
  split; [exact Hnd | split].
  - intros key. rewrite <- dict_mem_keys, traverse_mem. simpl.
    intuition discriminate.
  - intros key c H. apply dict_get_In in H; [|exact Hnd].
    apply traverse_get in H. destruct H as [H|[path [-> H]]].
    + discriminate.
    + exact H.
Qed.

End TreeProperties.

(** ** The builder *)

Section BuilderProperties.

Variable weight : Type.
Variable weight_lt : weight -> weight -> bool.
Variable weight_add : weight -> weight -> weight.

Local Abbreviation node := (HuffmanNode weight).
Local Abbreviation sort_nodes := (sort_by weight_lt (@prob weight)).
Local Abbreviation loop := (merge_loop weight_lt weight_add).
Local Abbreviation parent := (merge_nodes weight_add).

Lemma insert_by_perm (A : Type) (key : A -> weight) (x : A) (l : list A) :
  Permutation (insert_by weight_lt key x l) (x :: l).
Proof.
  induction l as [|y rest IH]; simpl; [reflexivity|].
  destruct (weight_lt (key y) (key x)); [|reflexivity].
  rewrite IH. apply perm_swap.
Qed.

Lemma sort_by_perm (A : Type) (key : A -> weight) (l : list A) :
  Permutation (sort_by weight_lt key l) l.
Proof.
  induction l as [|x rest IH]; simpl; [reflexivity|].
  rewrite insert_by_perm, IH. reflexivity.
Qed.

(** The loop, unfolded once. *)
Lemma merge_loop_once (nodes : list node) :
  loop nodes =
  if Nat.ltb 1 (List.length nodes) then
    match sort_nodes nodes with
    | l :: r :: rest => loop (rest ++ [parent l r])
    | _ => Raise IndexError
    end
  else Ok nodes.
Proof.
  funelim (merge_loop weight_lt weight_add nodes);
    match goal with E : Nat.ltb _ _ = _ |- _ => rewrite E end;
    try match goal with E : sort_by _ _ _ = _ |- _ => rewrite E end;
    reflexivity.
Qed.

(** A property of the working list that sorting and merging preserve holds
    of the list the loop ends with; the loop always ends, without
    [IndexError], on a list of at most one node. *)
Lemma merge_loop_invariant (P : list node -> Prop) :
  (forall nodes, P nodes -> P (sort_nodes nodes)) ->
  (forall l r rest, P (l :: r :: rest) -> P (rest ++ [parent l r])) ->
  forall nodes, P nodes ->
  exists out, loop nodes = Ok out /\ P out /\
              List.length out <= 1 /\ (nodes <> [] -> out <> []).
Proof.
  intros Hsort Hmerge nodes.
  remember (List.length nodes) as n eqn:Hn. revert nodes Hn.
  induction n as [n IH] using lt_wf_ind. intros nodes Hn HP.
  rewrite merge_loop_once.
  destruct (Nat.ltb 1 (List.length nodes)) eqn:Hlong.
  - apply Nat.ltb_lt in Hlong.
    pose proof (length_sort_by weight_lt (@prob weight) nodes) as Hlen.
    destruct (sort_nodes nodes) as [|l [|r rest]] eqn:Hsorted;
      simpl in Hlen; try lia.
    destruct (IH (List.length (rest ++ [parent l r]))) with
      (nodes := rest ++ [parent l r]) as [out [Hout [HPout [Hshort Hne]]]].
    + rewrite length_app. simpl. lia.
    + reflexivity.
    + apply Hmerge. rewrite <- Hsorted. apply Hsort. exact HP.
    + exists out. repeat split; auto.
      intros _. apply Hne. destruct rest; discriminate.
  - apply Nat.ltb_ge in Hlong. exists nodes. auto.
Qed.

Lemma merge_loop_no_index_error (nodes : list node) :
  exists out, loop nodes = Ok out.
Proof.
  destruct (@merge_loop_invariant (fun _ => True)) with (nodes := nodes)
    as [out [H _]]; auto.
  exists out. exact H.
Qed.

Lemma length_initial_nodes (symbols : list string) (probs : list weight) :
  List.length symbols = List.length probs ->
  List.length (initial_nodes symbols probs) = List.length symbols.
Proof.
  revert probs. induction symbols as [|s symbols IH]; intros [|p probs];
    simpl; intros H; try discriminate; [reflexivity|].
  rewrite IH; [reflexivity | lia].
Qed.

Lemma leaves_initial_nodes (symbols : list string) (probs : list weight) :
  List.length symbols = List.length probs ->
  flat_map (@leaf_symbols weight) (initial_nodes symbols probs) = symbols.
Proof.
  revert probs. induction symbols as [|s symbols IH]; intros [|p probs];
    simpl; intros H; try discriminate; [reflexivity|].
  rewrite IH; [reflexivity | lia].
Qed.

(** The last node standing is a parent as soon as the loop has run once. *)
Definition lone_parent (nodes : list node) : Prop :=
  List.length nodes = 1 -> exists x, nodes = [x] /\ symbol x = None.

Lemma lone_parent_sort (nodes : list node) :
  lone_parent nodes -> lone_parent (sort_nodes nodes).
Proof.
  unfold lone_parent. rewrite length_sort_by. intros H Hlen.
  destruct (H Hlen) as [x [-> Hx]]. exists x. auto.
Qed.

Lemma lone_parent_merge (l r : node) (rest : list node) :
  lone_parent (rest ++ [parent l r]).
Proof.
  unfold lone_parent. rewrite length_app. simpl. intros Hlen.
  destruct rest; [|simpl in Hlen; lia].
  exists (parent l r). auto.
Qed.

Definition same_leaves (symbols : list string) (nodes : list node) : Prop :=
  Permutation (flat_map (@leaf_symbols weight) nodes) symbols.

Lemma same_leaves_sort (symbols : list string) (nodes : list node) :
  same_leaves symbols nodes -> same_leaves symbols (sort_nodes nodes).
Proof.
  unfold same_leaves. intros H. rewrite <- H.
  apply Permutation_flat_map. apply sort_by_perm.
Qed.

Lemma same_leaves_merge (symbols : list string) (l r : node)
    (rest : list node) :
  same_leaves symbols (l :: r :: rest) ->
  same_leaves symbols (rest ++ [parent l r]).
Proof.
  unfold same_leaves. intros H. rewrite <- H.
  rewrite flat_map_app. simpl. rewrite app_nil_r.
  rewrite (app_assoc (leaf_symbols l)). apply Permutation_app_comm.
Qed.

(** A single-symbol alphabet: the loop does not run and the tree is the lone
    leaf. *)
Lemma build_single (a : string) (p : weight) :
  build_huffman_tree weight_lt weight_add [a] [p] =
  Ok (Some (new_node (Some a) p)).
Proof.
  unfold build_huffman_tree. cbn [List.length Nat.eqb negb initial_nodes].
  rewrite merge_loop_once. reflexivity.
Qed.

(** The empty alphabet: no node is created and [None] is returned. *)
Lemma build_empty :
  build_huffman_tree weight_lt weight_add [] [] = Ok None.
Proof.
  unfold build_huffman_tree. cbn [List.length Nat.eqb negb initial_nodes].
  rewrite merge_loop_once. reflexivity.
Qed.

(** What [build_huffman_tree] returns on a well-formed, non-empty request. *)
Lemma build_huffman_tree_ok (symbols : list string) (probs : list weight) :
  List.length symbols = List.length probs ->
  symbols <> [] ->
  exists tree,
    build_huffman_tree weight_lt weight_add symbols probs = Ok (Some tree) /\
    Permutation (leaf_symbols tree) symbols /\
    (2 <= List.length symbols -> symbol tree = None).
Proof.
  intros Hlen Hne. unfold build_huffman_tree.
  rewrite (proj2 (Nat.eqb_eq _ _) Hlen). simpl.
  pose (P := fun nodes : list node =>
               same_leaves symbols nodes /\
               (2 <= List.length symbols -> lone_parent nodes)).
  destruct (@merge_loop_invariant P) with (nodes := initial_nodes symbols probs)
    as [out [Hout [[Hleaves Hparent] [Hshort Hnonempty]]]].
  - intros nodes [H1 H2]. split; [apply same_leaves_sort; exact H1|].
    intros H. apply lone_parent_sort, H2, H.
  - intros l r rest [H1 H2]. split; [apply same_leaves_merge; exact H1|].
    intros _. apply lone_parent_merge.
  - split.
    + unfold same_leaves. rewrite leaves_initial_nodes by exact Hlen.
      reflexivity.
    + intros H Hone. rewrite length_initial_nodes in Hone by exact Hlen. lia.
  - rewrite Hout. destruct out as [|tree [|x out]].
    + exfalso. apply Hnonempty; [|reflexivity].
      intros E. apply (f_equal (@List.length _)) in E.
      rewrite length_initial_nodes in E by exact Hlen.
      destruct symbols; [contradiction | discriminate].
    + exists tree. split; [reflexivity | split].
      * unfold same_leaves in Hleaves. simpl in Hleaves.
        rewrite app_nil_r in Hleaves. exact Hleaves.
      * intros H. destruct (Hparent H eq_refl) as [x [[= <-] Hx]]. exact Hx.
    + simpl in Hshort. lia.
Qed.

End BuilderProperties.

(** ** The encoder *)

(** Every character of the input satisfies [P]. *)
Fixpoint all_chars (P : ascii -> Prop) (s : string) : Prop :=
  match s with
  | EmptyString => True
  | String c rest => P c /\ all_chars P rest
  end.

(** The in-order concatenation of the codewords of the characters of [s], and
    the sum of their lengths; a character without an entry contributes
    nothing. *)
Definition codeword_of (codes : dict) (c : ascii) : string :=
  match dict_get (str_of_char c) codes with
  | Some code => code
  | None => ""
  end.

Fixpoint concat_codewords (s : string) (codes : dict) : string :=
  match s with
  | EmptyString => ""
  | String c rest => codeword_of codes c +++ concat_codewords rest codes
  end.

Fixpoint sum_codeword_lengths (s : string) (codes : dict) : nat :=
  match s with
  | EmptyString => 0
  | String c rest =>
      String.length (codeword_of codes c) + sum_codeword_lengths rest codes
  end.

(** The position and the character of the first symbol of [s] that has no
    entry in [codes], counting from [i]. *)
Fixpoint first_unknown (s : string) (codes : dict) (i : nat)
  : option (nat * ascii) :=
  match s with
  | EmptyString => None
  | String c rest =>
      if dict_mem (str_of_char c) codes then first_unknown rest codes (S i)
      else Some (i, c)
  end.

Lemma length_concat_codewords (s : string) (codes : dict) :
  String.length (concat_codewords s codes) = sum_codeword_lengths s codes.
Proof.
  induction s as [|c s IH]; simpl; [reflexivity|].
  rewrite length_append, IH. reflexivity.
Qed.

Lemma encode_loop_known (s : string) (codes : dict) :
  all_chars (fun c => dict_mem (str_of_char c) codes = true) s ->
  forall encoded,
    encode_loop s codes encoded = Ok (encoded +++ concat_codewords s codes).
Proof.
  induction s as [|c s IH]; simpl; intros Hall encoded.
  - rewrite append_nil_r. reflexivity.
  - destruct Hall as [Hc Hall]. rewrite Hc. unfold codeword_of.
    apply dict_mem_get in Hc. destruct Hc as [code Hcode]. rewrite Hcode.
    rewrite (IH Hall), append_assoc. reflexivity.
Qed.

Lemma encode_loop_unknown (s : string) (codes : dict) :
  forall i pos c encoded,
    first_unknown s codes i = Some (pos, c) ->
    encode_loop s codes encoded = Raise (ValueError_unknown_symbol c).
Proof.
  induction s as [|a s IH]; simpl; intros i pos c encoded H; [discriminate|].
  destruct (dict_mem (str_of_char a) codes) eqn:Ha.
  - apply dict_mem_get in Ha. destruct Ha as [code Hcode]. rewrite Hcode.
    eapply IH. exact H.
  - injection H as _ ->. reflexivity.
Qed.

(** What [first_unknown] finds: the symbol has no entry, every symbol before it
    has one, and the position counts the symbols before it. *)
Lemma first_unknown_some (s : string) (codes : dict) :
  forall i pos c,
    first_unknown s codes i = Some (pos, c) ->
    exists before after,
      s = before +++ String c after /\
      pos = i + String.length before /\
      dict_mem (str_of_char c) codes = false /\
      all_chars (fun a => dict_mem (str_of_char a) codes = true) before.
Proof.
  induction s as [|a s IH]; simpl; intros i pos c H; [discriminate|].
  destruct (dict_mem (str_of_char a) codes) eqn:Ha.
  - destruct (IH _ _ _ H) as [before [after [-> [-> [Hc Hall]]]]].
    exists (String a before), after. simpl.
    repeat split; [lia | exact Hc | exact Ha | exact Hall].
  - injection H as <- <-. exists "", s. simpl.
    repeat split; [lia | exact Ha].
Qed.

Lemma first_unknown_none (s : string) (codes : dict) :
  forall i,
    first_unknown s codes i = None <->
    all_chars (fun c => dict_mem (str_of_char c) codes = true) s.
Proof.
  induction s as [|a s IH]; simpl; intros i; [tauto|].
  destruct (dict_mem (str_of_char a) codes).
  - rewrite IH. tauto.
  - split; [discriminate | intros [H _]; discriminate].
Qed.

(** ** The decoder *)

Section DecoderProperties.

Variable weight : Type.

Local Abbreviation node := (HuffmanNode weight).

(** The node at the end of [path] from [n], whatever symbols lie on the
    way. *)
Fixpoint node_at (n : node) (path : string) {struct path} : option node :=
  match path with
  | EmptyString => Some n
  | String b rest =>
      if Ascii.eqb b "0" then
        match left n with Some m => node_at m rest | None => None end
      else if Ascii.eqb b "1" then
        match right n with Some m => node_at m rest | None => None end
      else None
  end.

Lemma node_at_append (n m : node) (path : string) (b : ascii) :
  node_at n path = Some m ->
  node_at n (path +++ str_of_char b) = node_at m (str_of_char b).
Proof.
  revert n. induction path as [|a path IH]; simpl; intros n H.
  - injection H as ->. reflexivity.
  - destruct (Ascii.eqb a "0").
    + destruct (left n); [auto | discriminate].
    + destruct (Ascii.eqb a "1"); [|discriminate].
      destruct (right n); [auto | discriminate].
Qed.

Lemma reaches_leaf (n : node) (path k s : string) :
  reaches n path k -> symbol n = Some s -> path = "" /\ k = s.
Proof. destruct 1; simpl; intros [=]; subst; auto. Qed.

(** Reading a codeword from an inner node emits its symbol and resets the
    reference to the root. *)
Lemma decode_bits_codeword (root n : node) (path k : string) :
  reaches n path k ->
  symbol n = None ->
  forall d flag rest,
    decode_bits root (mk_state d n flag) (path +++ rest) =
    decode_bits root (mk_state (d +++ k) root true) rest.
Proof.
  induction 1 as [k p l r | p n r path k Hn IH | p l n path k Hn IH];
    intros Hsym d flag rest; [discriminate | |];
    simpl; unfold decode_step; simpl;
    (destruct (symbol n) as [s|] eqn:Es;
     [destruct (reaches_leaf Hn Es) as [-> ->]; reflexivity
     | apply IH; reflexivity]).
Qed.

(** The loop stops early only on an invalid bit or on a missing child. *)
Lemma decode_bits_raise (root : node) (bits : string) :
  forall st e,
    decode_bits root st bits = Raise e ->
    e = ValueError_malformed_tree \/
    exists bit, e = ValueError_invalid_bit bit /\
                bit <> "0"%char /\ bit <> "1"%char.
Proof.
  induction bits as [|b bits IH]; simpl; intros st e H; [discriminate|].
  destruct (decode_step root st b) as [st'|e'] eqn:Hstep; [eauto|].
  injection H as ->. unfold decode_step, arrive in Hstep.
  destruct (Ascii.eqb_spec b "0") as [->|H0].
  - destruct (left (current_node st)) as [m|]; [|left; congruence].
    destruct (symbol m); discriminate.
  - destruct (Ascii.eqb_spec b "1") as [->|H1].
    + destruct (right (current_node st)) as [m|]; [|left; congruence].
      destruct (symbol m); discriminate.
    + right. exists b. split; [congruence | auto].
Qed.

(** Where the reference stands: [pending] is the part of the input read since
    the last reset, it leads from the root to the current node, and the
    reference is the root itself exactly when nothing is pending. *)
Definition stands_at (root : node) (st : decoder_state weight)
    (pending : string) : Prop :=
  node_at root pending = Some (current_node st) /\
  (at_root st = true <-> pending = "").

Lemma decode_step_stands_at (root : node) (st st' : decoder_state weight)
    (pending : string) (b : ascii) :
  stands_at root st pending ->
  decode_step root st b = Ok st' ->
  stands_at root st' "" \/ stands_at root st' (pending +++ str_of_char b).
Proof.
  intros [Hnode Hflag] Hstep. unfold decode_step, arrive in Hstep.
  assert (Hgo : forall child,
             node_at (current_node st) (str_of_char b) = child ->
             match child with
             | Some n =>
                 match symbol n with
                 | Some s => Ok (mk_state (decoded st +++ s) root true)
                 | None => Ok (mk_state (decoded st) n false)
                 end
             | None => Raise ValueError_malformed_tree
             end = Ok st' ->
             stands_at root st' "" \/
             stands_at root st' (pending +++ str_of_char b)).
  { intros [n|] Hchild Hres; [|discriminate].
    destruct (symbol n); injection Hres as <-.
    - left. split; simpl; tauto.
    - right. split; simpl.
      + rewrite (node_at_append root pending b Hnode). exact Hchild.
      + split; [discriminate|]. destruct pending; discriminate. }
  destruct (Ascii.eqb b "0") eqn:E0.
  - apply (Hgo (left (current_node st))); [|exact Hstep].
    simpl. rewrite E0. destruct (left (current_node st)); reflexivity.
  - destruct (Ascii.eqb b "1") eqn:E1; [|discriminate].
    apply (Hgo (right (current_node st))); [|exact Hstep].
    simpl. rewrite E0, E1. destruct (right (current_node st)); reflexivity.
Qed.

Lemma decode_bits_stands_at (root : node) (bits : string) :
  forall st st' before pending,
    stands_at root st pending ->
    decode_bits root st bits = Ok st' ->
    exists consumed pending',
      (before +++ pending) +++ bits = consumed +++ pending' /\
      stands_at root st' pending'.
Proof.
  induction bits as [|b bits IH]; simpl; intros st st' before pending Hst H.
  - injection H as <-. exists before, pending.
    rewrite append_nil_r. auto.
  - destruct (decode_step root st b) as [st1|e] eqn:Hstep; [|discriminate].
    destruct (decode_step_stands_at b Hst Hstep) as [Hreset|Hdeeper].
    + destruct (IH st1 st' (before +++ pending +++ str_of_char b) ""
                   Hreset H) as [consumed [pending' [Heq Hst']]].
      exists consumed, pending'. split; [|exact Hst'].
      rewrite <- Heq, !append_assoc. reflexivity.
    + destruct (IH st1 st' before (pending +++ str_of_char b) Hdeeper H)
        as [consumed [pending' [Heq Hst']]].
      exists consumed, pending'. split; [|exact Hst'].
      rewrite <- Heq, !append_assoc. reflexivity.
Qed.

End DecoderProperties.

(** ** Tables of built trees: prefix-freeness, shape of the codewords, round
    trip *)

Section CodeProperties.

Variable weight : Type.
Variable weight_lt : weight -> weight -> bool.
Variable weight_add : weight -> weight -> weight.

Local Abbreviation node := (HuffmanNode weight).

(** Two entries of a table with unique keys that sit at different places have
    different keys. *)
Lemma distinct_entries_distinct_keys (table : dict) (i j : nat)
    (k1 c1 k2 c2 : string) :
  NoDup (dict_keys table) ->
  i <> j ->
  nth_error table i = Some (k1, c1) ->
  nth_error table j = Some (k2, c2) ->
  k1 <> k2.
Proof.
  intros Hnd Hij Hi Hj Heq. apply Hij.
  apply (proj1 (NoDup_nth_error (dict_keys table)) Hnd).
  - unfold dict_keys. rewrite length_map. apply nth_error_Some. congruence.
  - unfold dict_keys. rewrite !nth_error_map, Hi, Hj. simpl. congruence.
Qed.

(** In the table of any tree, no codeword is a prefix of the codeword of
    another entry. *)
Lemma traverse_prefix_free (root : node) (i j : nat) (k1 c1 k2 c2 : string) :
  i <> j ->
  nth_error (traverse root "" []) i = Some (k1, c1) ->
  nth_error (traverse root "" []) j = Some (k2, c2) ->
  ~ is_prefix c1 c2.
Proof.
  intros Hij Hi Hj [rest ->].
  destruct (generate_table root) as [Hnd [_ Hreach]].
  eapply distinct_entries_distinct_keys;
    [exact Hnd | exact Hij | exact Hi | exact Hj |].
  pose proof (Hreach _ _ (nth_error_In _ _ Hi)) as H1.
  pose proof (Hreach _ _ (nth_error_In _ _ Hj)) as H2.
  destruct (reaches_prefix H1 _ H2) as [_ H]. exact H.
Qed.

(** Decoding the concatenated codewords of [s] gives back [s], over any tree
    whose root is not a leaf. *)
Lemma decode_concat_codewords (root : node) (s : string) :
  symbol root = None ->
  all_chars (fun c => dict_mem (str_of_char c) (traverse root "" []) = true)
            s ->
  forall d,
    decode_bits root (mk_state d root true)
                (concat_codewords s (traverse root "" [])) =
    Ok (mk_state (d +++ s) root true).
Proof.
  intros Hroot. destruct (generate_table root) as [Hnd [_ Hreach]].
  induction s as [|c s IH]; simpl; intros Hall d.
  - rewrite append_nil_r. reflexivity.
  - destruct Hall as [Hc Hall]. unfold codeword_of.
    apply dict_mem_get in Hc. destruct Hc as [code Hcode]. rewrite Hcode.
    apply dict_get_In in Hcode; [|exact Hnd]. apply Hreach in Hcode.
    rewrite (decode_bits_codeword root Hcode Hroot), (IH Hall).
    rewrite append_assoc. reflexivity.
Qed.

Lemma round_trip_tree (root : node) (s : string) :
  symbol root = None ->
  all_chars (fun c => dict_mem (str_of_char c) (traverse root "" []) = true)
            s ->
  exists encoded,
    encode_string s (traverse root "" []) = Ok encoded /\
    decode_string encoded root = Ok s.
Proof.
  intros Hroot Hall. exists (concat_codewords s (traverse root "" [])).
  unfold encode_string, decode_string, initial_state.
  rewrite encode_loop_known by exact Hall.
  rewrite decode_concat_codewords by assumption.
  simpl. auto.
Qed.

(** *** The claims about the table and the round trip *)

(** C2 (prefix-free property).  For an alphabet of at least two symbols, the
    builder returns a tree, the generator returns its table, and no codeword
    of the table is a prefix of the codeword of another entry. *)
Theorem prefix_free_code_table (symbols : list string) (probs : list weight) :
  List.length symbols = List.length probs ->
  2 <= List.length symbols ->
  exists tree table,
    build_huffman_tree weight_lt weight_add symbols probs = Ok (Some tree) /\
    generate_huffman_codes (Some tree) = Ok table /\
    forall i j k1 c1 k2 c2,
      i <> j ->
      nth_error table i = Some (k1, c1) ->
      nth_error table j = Some (k2, c2) ->
      ~ is_prefix c1 c2.
Proof.
  intros Hlen Htwo.
  destruct (@build_huffman_tree_ok _ weight_lt weight_add symbols probs Hlen)
    as [tree [Hbuild _]].
  { destruct symbols; [simpl in Htwo; lia | discriminate]. }
  exists tree, (traverse tree "" []).
  split; [exact Hbuild | split; [reflexivity|]].
  intros i j k1 c1 k2 c2. apply traverse_prefix_free.
Qed.

(** C6, as the code has it.  For a non-empty alphabet the table has unique
    keys, its keys are exactly the input symbols, and every codeword is a
    finite sequence of the digits ['0'] and ['1']; the codewords are
    non-empty when the alphabet has at least two entries, and the table of a
    single-symbol alphabet maps the symbol to the empty codeword. *)
Theorem code_table_shape (symbols : list string) (probs : list weight) :
  List.length symbols = List.length probs ->
  symbols <> [] ->
  exists tree table,
    build_huffman_tree weight_lt weight_add symbols probs = Ok (Some tree) /\
    generate_huffman_codes (Some tree) = Ok table /\
    NoDup (dict_keys table) /\
    (forall s, In s symbols <-> In s (dict_keys table)) /\
    (forall k c, In (k, c) table -> binary_digits c) /\
    (2 <= List.length symbols -> forall k c, In (k, c) table -> c <> "") /\
    (forall a, symbols = [a] -> table = [(a, "")]).
Proof.
  intros Hlen Hne.
  destruct (@build_huffman_tree_ok _ weight_lt weight_add symbols probs Hlen
              Hne) as [tree [Hbuild [Hperm Hroot]]].
  destruct (generate_table tree) as [Hnd [Hkeys Hreach]].
  exists tree, (traverse tree "" []).
  split; [exact Hbuild | split; [reflexivity | split; [exact Hnd|]]].
  split; [|split; [|split]].
  - intros s. rewrite Hkeys. split; intros H.
    + apply (Permutation_in _ (Permutation_sym Hperm) H).
    + apply (Permutation_in _ Hperm H).
  - intros k c H. apply (reaches_binary_digits (Hreach _ _ H)).
  - intros Htwo k c H.
    apply (reaches_internal_nonempty (Hreach _ _ H) (Hroot Htwo)).
  - intros a ->. destruct probs as [|p [|q probs]]; try discriminate.
    rewrite build_single in Hbuild. injection Hbuild as <-. reflexivity.
Qed.

(** C1, as the code has it (round-trip law).  For an alphabet of at least two
    entries and every string whose characters are symbols of the alphabet,
    the builder and the generator succeed, encoding succeeds, and decoding
    the encoded string over the same tree returns the string. *)
Theorem round_trip (symbols : list string) (probs : list weight)
    (s : string) :
  List.length symbols = List.length probs ->
  2 <= List.length symbols ->
  all_chars (fun c => In (str_of_char c) symbols) s ->
  exists tree table encoded,
    build_huffman_tree weight_lt weight_add symbols probs = Ok (Some tree) /\
    generate_huffman_codes (Some tree) = Ok table /\
    encode_string s table = Ok encoded /\
    decode_string encoded tree = Ok s.
Proof.
  intros Hlen Htwo Hall.
  destruct (@build_huffman_tree_ok _ weight_lt weight_add symbols probs Hlen)
    as [tree [Hbuild [Hperm Hroot]]].
  { destruct symbols; [simpl in Htwo; lia | discriminate]. }
  destruct (generate_table tree) as [_ [Hkeys _]].
  destruct (@round_trip_tree tree s (Hroot Htwo)) as [encoded [Henc Hdec]].
  - induction s as [|c s IH]; simpl in *; [exact I|].
    destruct Hall as [Hc Hall]. split; [|exact (IH Hall)].
    apply dict_mem_keys, Hkeys.
    apply (Permutation_in _ (Permutation_sym Hperm) Hc).
  - exists tree, (traverse tree "" []), encoded. auto.
Qed.

End CodeProperties.

(** ** The claims about the builder's checks *)

Section BuilderChecks.

Variable weight : Type.
Variable weight_lt : weight -> weight -> bool.
Variable weight_add : weight -> weight -> weight.


(** C4, as the code has it.  The builder never inspects the sign of a weight:
    whatever the weights are (negative, zero or positive), it returns a
    result when the two lists have the same length, and its only failure is
    the count mismatch. *)
Theorem build_checks_only_counts (symbols : list string)
    (probs : list weight) :
  (List.length symbols = List.length probs ->
   exists tree,
     build_huffman_tree weight_lt weight_add symbols probs = Ok tree) /\
  (List.length symbols <> List.length probs ->
   build_huffman_tree weight_lt weight_add symbols probs =
   Raise ValueError_count_mismatch) /\
  (forall e,
     build_huffman_tree weight_lt weight_add symbols probs = Raise e ->
     e = ValueError_count_mismatch /\
     List.length symbols <> List.length probs).
Proof.
  assert (Hsame :
            List.length symbols = List.length probs ->
            exists tree,
              build_huffman_tree weight_lt weight_add symbols probs = Ok tree).
  { intros Hlen. unfold build_huffman_tree.
    rewrite (proj2 (Nat.eqb_eq _ _) Hlen). simpl.
    destruct (merge_loop_no_index_error weight_lt weight_add
                (initial_nodes symbols probs)) as [out ->].
    eauto. }
  assert (Hdiff :
            List.length symbols <> List.length probs ->
            build_huffman_tree weight_lt weight_add symbols probs =
            Raise ValueError_count_mismatch).
  { intros Hlen. unfold build_huffman_tree.
    rewrite (proj2 (Nat.eqb_neq _ _) Hlen). reflexivity. }
  split; [exact Hsame | split; [exact Hdiff|]].
  intros e He.
  destruct (Nat.eq_dec (List.length symbols) (List.length probs))
    as [Hlen|Hlen].
  - destruct (Hsame Hlen) as [tree Htree]. congruence.
  - rewrite (Hdiff Hlen) in He. injection He as <-. auto.
Qed.

(** C5, as the code has it.  For the empty alphabet the builder returns
    [None] without failing; the failure comes from the code generator, which
    rejects the absent tree. *)
Theorem build_empty_alphabet :
  build_huffman_tree weight_lt weight_add [] [] = Ok None /\
  generate_huffman_codes (@None (HuffmanNode weight)) =
  Raise ValueError_empty_tree.
Proof. split; [apply build_empty | reflexivity]. Qed.

End BuilderChecks.

(** ** The claims about the encoder *)

(** C8, as the code has it.  When every symbol of the input has an entry,
    [encode_string] returns the in-order concatenation of the codewords, whose
    length is the sum of the codeword lengths; the empty input gives the empty
    bitstring; and otherwise it fails with the error that names the first
    symbol without an entry (and nothing else). *)
Theorem encode_string_spec (s : string) (codes : dict) :
  (all_chars (fun c => dict_mem (str_of_char c) codes = true) s ->
   encode_string s codes = Ok (concat_codewords s codes) /\
   String.length (concat_codewords s codes) = sum_codeword_lengths s codes) /\
  encode_string "" codes = Ok "" /\
  (~ all_chars (fun c => dict_mem (str_of_char c) codes = true) s ->
   exists before c after,
     s = before +++ String c after /\
     all_chars (fun a => dict_mem (str_of_char a) codes = true) before /\
     dict_mem (str_of_char c) codes = false /\
     first_unknown s codes 0 = Some (String.length before, c) /\
     encode_string s codes = Raise (ValueError_unknown_symbol c)).
Proof.
  split; [|split].
  - intros Hall. split.
    + unfold encode_string. rewrite encode_loop_known by exact Hall.
      reflexivity.
    + apply length_concat_codewords.
  - reflexivity.
  - intros Hnot.
    destruct (first_unknown s codes 0) as [[pos c]|] eqn:Hfirst.
    + destruct (first_unknown_some s codes 0 Hfirst)
        as [before [after [Hs [Hpos [Hc Hall]]]]].
      exists before, c, after. simpl in Hpos. subst pos.
      repeat split; try assumption.
      unfold encode_string. apply (encode_loop_unknown s codes 0 "" Hfirst).
    + exfalso. apply Hnot. apply (first_unknown_none s codes 0). exact Hfirst.
Qed.

(** ** The claims about the decoder *)

Section DecoderClaims.

Variable weight : Type.

Local Abbreviation node := (HuffmanNode weight).

(** C9 (terminal condition).  When the loop consumes the whole bitstring
    without raising (every character is ['0'] or ['1'] and no child is
    missing), [decode_string] fails with the incomplete-code error exactly
    when the current node is not the root, and returns the accumulated output
    otherwise; the current node is the root exactly when no bit is pending
    since the last emitted symbol.  The empty bitstring decodes to the empty
    sequence. *)
Theorem decode_terminal_condition (root : node) (bits : string)
    (st : decoder_state weight) :
  decode_bits root (initial_state root) bits = Ok st ->
  (decode_string bits root = Raise ValueError_incomplete <->
   at_root st = false) /\
  (at_root st = true -> decode_string bits root = Ok (decoded st)) /\
  (exists consumed pending,
     bits = consumed +++ pending /\
     node_at root pending = Some (current_node st) /\
     (at_root st = true <-> pending = "")) /\
  decode_string "" root = Ok "".
Proof.
  intros Hloop. unfold decode_string. rewrite Hloop.
  split; [|split; [|split]].
  - destruct (at_root st); split; intros H; congruence.
  - intros ->. reflexivity.
  - destruct (@decode_bits_stands_at _ root bits (initial_state root) st "" "")
      as [consumed [pending [Heq [Hnode Hflag]]]].
    + split; simpl; tauto.
    + exact Hloop.
    + exists consumed, pending. simpl in Heq. auto.
  - reflexivity.
Qed.

End DecoderClaims.

(** ** The claims about the metrics *)

Lemma dict_mem_all_or_missing (codes : dict) (symbols : list string) :
  (forall s, In s symbols -> dict_mem s codes = true) \/
  (exists s, In s symbols /\ dict_mem s codes = false).
Proof.
  induction symbols as [|s symbols [IH|[x [Hin Hx]]]].
  - left. intros s [].
  - destruct (dict_mem s codes) eqn:Hs.
    + left. intros x [<-|Hx]; auto.
    + right. exists s. simpl. auto.
  - right. exists x. simpl. auto.
Qed.

Lemma average_loop_missing (codes : dict) (symbols : list string) :
  forall (probs : list float) (avg_len : float),
    List.length symbols = List.length probs ->
    (exists s, In s symbols /\ dict_mem s codes = false) ->
    exists key,
      In key symbols /\ dict_mem key codes = false /\
      average_loop codes symbols probs avg_len = Raise (KeyError key).
Proof.
  induction symbols as [|s symbols IH]; intros probs avg_len Hlen Hmiss.
  - destruct Hmiss as [x [[] _]].
  - destruct probs as [|p probs]; [discriminate|]. simpl.
    destruct (dict_get s codes) as [code|] eqn:Hs.
    + destruct (IH probs
                  (avg_len + p * float_of_len (String.length code))%float)
        as [key [Hin [Hkey Hres]]].
      * simpl in Hlen. lia.
      * destruct Hmiss as [x [[<-|Hin] Hx]].
        -- apply dict_mem_false_get in Hx. congruence.
        -- exists x. auto.
      * exists key. simpl. auto.
    + exists s. apply dict_mem_false_get in Hs. simpl. auto.
Qed.

Lemma average_loop_present (codes : dict) (symbols : list string) :
  forall (probs : list float) (avg_len : float),
    List.length symbols = List.length probs ->
    (forall s, In s symbols -> dict_mem s codes = true) ->
    exists value, average_loop codes symbols probs avg_len = Ok value.
Proof.
  induction symbols as [|s symbols IH]; intros probs avg_len Hlen Hall.
  - simpl. eauto.
  - destruct probs as [|p probs]; [discriminate|]. simpl.
    destruct (proj1 (dict_mem_get s codes) (Hall s (or_introl eq_refl)))
      as [code ->].
    apply IH; [simpl in Hlen; lia | intros x Hx; apply Hall; right; exact Hx].
Qed.

(** C10.  With lists of equal length, a symbol without an entry in [codes]
    makes [calculate_average_length] fail with the [KeyError] of the
    unguarded lookup, on a symbol of the list that has no entry; the
    count-mismatch error is raised exactly when the lengths differ, and with
    equal lengths and all entries present a value is returned. *)
Theorem average_length_failures (codes : dict) (symbols : list string)
    (probs : list float) :
  (List.length symbols = List.length probs ->
   (exists s, In s symbols /\ dict_mem s codes = false) ->
   exists key,
     In key symbols /\ dict_mem key codes = false /\
     calculate_average_length codes symbols probs = Raise (KeyError key)) /\
  (calculate_average_length codes symbols probs =
     Raise ValueError_count_mismatch <->
   List.length symbols <> List.length probs) /\
  (List.length symbols = List.length probs ->
   (forall s, In s symbols -> dict_mem s codes = true) ->
   exists value, calculate_average_length codes symbols probs = Ok value).
Proof.
  unfold calculate_average_length.
  destruct (Nat.eqb_spec (List.length symbols) (List.length probs))
    as [Hlen|Hlen]; simpl.
  - split; [|split].
    + intros _ Hmiss. apply average_loop_missing; assumption.
    + split; [|contradiction]. intros H. exfalso.
      destruct (dict_mem_all_or_missing codes symbols) as [Hall|Hmiss].
      * destruct (average_loop_present codes symbols probs 0%float Hlen Hall)
          as [v Hv]. congruence.
      * destruct (average_loop_missing codes symbols probs 0%float Hlen Hmiss)
          as [key [_ [_ Hk]]]. congruence.
    + intros _ Hall. apply average_loop_present; assumption.
  - split; [|split]; try contradiction. tauto.
Qed.

(** The Kraft sum in the words of the definition: the terms
    [2 ** (-length(codeword))], one per codeword in the table's order, added
    from the left starting at [0.0]. *)
Definition kraft_terms (codes : dict) : list float :=
  map (fun code => pow2_neg (String.length code)) (dict_values codes).

Fixpoint sum_from_left (terms_reversed : list float) : float :=
  match terms_reversed with
  | [] => 0%float
  | last :: earlier => (sum_from_left earlier + last)%float
  end.

Definition kraft_sum (codes : dict) : float :=
  sum_from_left (rev (kraft_terms codes)).

Lemma kraft_loop_sum (values : list string) (start : float) :
  kraft_loop values start =
  fold_right (fun term acc => (acc + term)%float) start
    (rev (map (fun code => pow2_neg (String.length code)) values)).
Proof.
  unfold kraft_loop. revert start.
  induction values as [|v vs IH]; intros start; simpl; [reflexivity|].
  rewrite fold_right_app. simpl. apply IH.
Qed.

Lemma sum_from_left_fold (terms : list float) :
  sum_from_left terms =
  fold_right (fun term acc => (acc + term)%float) 0%float terms.
Proof. induction terms as [|t ts IH]; simpl; [|rewrite IH]; reflexivity. Qed.

(** C7, as the code has it.  [check_kraft_inequality] returns the float sum of
    the terms [2 ** (-length)] in table order together with the result of the
    plain float comparison of that sum with [1.0]; no tolerance is applied. *)
Theorem check_kraft_inequality_exact (codes : dict) :
  snd (check_kraft_inequality codes) = kraft_sum codes /\
  fst (check_kraft_inequality codes) = (kraft_sum codes <=? 1)%float.
Proof.
  assert (H : kraft_loop (dict_values codes) 0%float = kraft_sum codes).
  { unfold kraft_sum, kraft_terms.
    rewrite sum_from_left_fold. apply kraft_loop_sum. }
  unfold check_kraft_inequality. cbn [fst snd]. rewrite H.
  split; reflexivity.
Qed.

(** ** Concrete runs *)

(** The tolerance the specification suggests for the comparison with [1.0]:
    the binary64 value of the literal [1e-9]. *)
Definition epsilon : float := 0x1.12e0be826d695p-30%float.

Definition leaf_A : float_tree := Node (Some "A") 1%float None None.

(** A table with the codewords ["0"], ["1"] and thirty zeros. *)
Definition long_third_codeword : dict :=
  [("a", "0"); ("b", "1"); ("c", "000000000000000000000000000000")].

(** C1 fails for a single-symbol alphabet: the lone codeword is empty, so
    ["AA"] encodes to the empty bitstring, which decodes to the empty
    string. *)
Lemma round_trip_single_symbol_counterexample :
  build_float ["A"] [1%float] = Ok (Some leaf_A) /\
  generate_huffman_codes (Some leaf_A) = Ok [("A", "")] /\
  all_chars (fun c => In (str_of_char c) ["A"]) "AA" /\
  encode_string "AA" [("A", "")] = Ok "" /\
  decode_string "" leaf_A = Ok "" /\
  "" <> "AA".
Proof.
  split; [vm_compute; reflexivity|].
  split; [reflexivity|].
  split; [simpl; auto|].
  split; [reflexivity|].
  split; [reflexivity | discriminate].
Qed.

(** C4 fails: a negative weight is accepted and a tree is returned. *)
Lemma negative_weight_accepted_counterexample :
  (-1 <? 0)%float = true /\
  build_float ["A"; "B"] [(-1)%float; 2%float] =
  Ok (Some (Node None 1%float
              (Some (Node (Some "A") (-1)%float None None))
              (Some (Node (Some "B") 2%float None None)))).
Proof. split; vm_compute; reflexivity. Qed.

(** C5 fails: the empty alphabet makes the builder return [None]; nothing is
    raised. *)
Lemma empty_alphabet_counterexample :
  build_float [] [] = Ok None /\
  (forall e, build_float [] [] <> Raise e).
Proof.
  assert (H : build_float [] [] = Ok None) by (vm_compute; reflexivity).
  split; [exact H | intros e; rewrite H; discriminate].
Qed.

(** C6 fails for a single-symbol alphabet: its codeword is empty. *)
Lemma empty_codeword_counterexample :
  build_float ["A"] [1%float] = Ok (Some leaf_A) /\
  generate_huffman_codes (Some leaf_A) = Ok [("A", "")] /\
  String.length "" = 0.
Proof. split; [vm_compute; reflexivity | split; reflexivity]. Qed.

(** C7 fails: the sum [0.5 + 0.5 + 2^-30] exceeds [1.0] by less than the
    tolerance, and the code reports the inequality as violated. *)
Lemma kraft_tolerance_counterexample :
  check_kraft_inequality long_third_codeword =
  (false, (1 + pow2_neg 30)%float) /\
  (1 + pow2_neg 30 <=? 1 + epsilon)%float = true.
Proof. split; vm_compute; reflexivity. Qed.

(** C8 fails on the position: the same error is raised whether the unknown
    symbol is first or second, so the error cannot tell where it was. *)
Lemma unknown_symbol_position_counterexample :
  first_unknown "X" [("A", "0")] 0 = Some (0, "X"%char) /\
  first_unknown "AX" [("A", "0")] 0 = Some (1, "X"%char) /\
  encode_string "X" [("A", "0")] = Raise (ValueError_unknown_symbol "X") /\
  encode_string "AX" [("A", "0")] = Raise (ValueError_unknown_symbol "X") /\
  ~ (exists position_of : exception -> nat,
       forall s codes e pos c,
         encode_string s codes = Raise e ->
         first_unknown s codes 0 = Some (pos, c) ->
         position_of e = pos).
Proof.
  repeat (split; [reflexivity|]).
  intros [position_of H].
  pose proof (H "X" [("A", "0")] _ 0 "X"%char eq_refl eq_refl) as H0.
  pose proof (H "AX" [("A", "0")] _ 1 "X"%char eq_refl eq_refl) as H1.
  congruence.
Qed.

(** ** The order of extraction *)


Section TieBreak.

Variable weight : Type.
Variable weight_lt : weight -> weight -> bool.
Variable weight_add : weight -> weight -> weight.

(** [<] on the weights is a strict weak order, as it is on Python floats that
    are not NaN: it is asymmetric, and an element below another is below, or
    the other is above, any third one. *)
Hypothesis weight_lt_asym :
  forall a b, weight_lt a b = true -> weight_lt b a = false.
Hypothesis weight_lt_split :
  forall a b c,
    weight_lt a c = true -> weight_lt a b = true \/ weight_lt b c = true.

Local Abbreviation node := (HuffmanNode weight).

(** A node of the working list together with its insertion rank: the [i]-th
    leaf has rank [i] (alphabet order), and the parents take the following
    ranks in the order of their creation. *)
Local Abbreviation ranked := (nat * node)%type.















End TieBreak.

(** ** The theorems at concrete inputs *)

Definition example_symbols : list string := ["A"; "B"; "C"; "D"].
Definition example_probs : list float := [0.5; 0.25; 0.125; 0.125]%float.

Lemma round_trip_witness :
  exists tree table encoded,
    build_float example_symbols example_probs = Ok (Some tree) /\
    generate_huffman_codes (Some tree) = Ok table /\
    encode_string "ABACADD" table = Ok encoded /\
    decode_string encoded tree = Ok "ABACADD".
Proof.
  apply (@round_trip float PrimFloat.ltb PrimFloat.add
           example_symbols example_probs "ABACADD").
  - reflexivity.
  - simpl. lia.
  - simpl. intuition.
Defined.

Lemma prefix_free_code_table_witness :
  exists tree table,
    build_float example_symbols example_probs = Ok (Some tree) /\
    generate_huffman_codes (Some tree) = Ok table /\
    forall i j k1 c1 k2 c2,
      i <> j ->
      nth_error table i = Some (k1, c1) ->
      nth_error table j = Some (k2, c2) ->
      ~ is_prefix c1 c2.
Proof.
  apply (@prefix_free_code_table float PrimFloat.ltb PrimFloat.add
           example_symbols example_probs).
  - reflexivity.
  - simpl. lia.
Defined.

Lemma code_table_shape_witness :
  exists tree table,
    build_float example_symbols example_probs = Ok (Some tree) /\
    generate_huffman_codes (Some tree) = Ok table /\
    NoDup (dict_keys table) /\
    (forall s, In s example_symbols <-> In s (dict_keys table)) /\
    (forall k c, In (k, c) table -> binary_digits c) /\
    (2 <= List.length example_symbols ->
     forall k c, In (k, c) table -> c <> "") /\
    (forall a, example_symbols = [a] -> table = [(a, "")]).
Proof.
  apply (@code_table_shape float PrimFloat.ltb PrimFloat.add
           example_symbols example_probs).
  - reflexivity.
  - discriminate.
Defined.

(** The tree of the codewords ["0"], ["10"] and ["11"]: after ["0"] the
    decoder is back at the root, after ["01"] it stands on the inner node. *)
Definition inner_BC : float_tree :=
  Node None 0.5%float
       (Some (Node (Some "B") 0.25%float None None))
       (Some (Node (Some "C") 0.25%float None None)).

Definition tree_ABC : float_tree :=
  Node None 1%float (Some (Node (Some "A") 0.5%float None None))
       (Some inner_BC).

Lemma decode_terminal_condition_witness :
  decode_bits tree_ABC (initial_state tree_ABC) "01" =
  Ok (mk_state "A" inner_BC false) /\
  decode_string "01" tree_ABC = Raise ValueError_incomplete /\
  decode_string "" tree_ABC = Ok "".
Proof.
  assert (Hloop : decode_bits tree_ABC (initial_state tree_ABC) "01" =
                  Ok (mk_state "A" inner_BC false)) by reflexivity.
  destruct (decode_terminal_condition tree_ABC "01" Hloop)
    as [Hfail [_ [_ Hempty]]].
  split; [exact Hloop | split; [|exact Hempty]].
  apply Hfail. reflexivity.
Defined.




Lemma build_checks_only_counts_witness :
  (exists tree,
     build_float ["A"; "B"] [0%float; (-3)%float] = Ok tree) /\
  build_float ["A"; "B"] [0.5%float] = Raise ValueError_count_mismatch.
Proof.
  destruct (@build_checks_only_counts float PrimFloat.ltb PrimFloat.add
              ["A"; "B"] [0%float; (-3)%float]) as [Hsame _].
  destruct (@build_checks_only_counts float PrimFloat.ltb PrimFloat.add
              ["A"; "B"] [0.5%float]) as [_ [Hdiff _]].
  split; [apply Hsame; reflexivity | apply Hdiff; simpl; lia].
Defined.

Lemma encode_string_spec_witness :
  encode_string "ABBA" [("A", "0"); ("B", "10")] = Ok "010100" /\
  String.length "010100" = 6 /\
  encode_string "ABXA" [("A", "0"); ("B", "10")] =
  Raise (ValueError_unknown_symbol "X").
Proof.
  destruct (encode_string_spec "ABBA" [("A", "0"); ("B", "10")])
    as [Hknown _].
  destruct (encode_string_spec "ABXA" [("A", "0"); ("B", "10")])
    as [_ [_ Hunknown]].
  destruct Hknown as [Hcode Hlen]; [simpl; auto|].
  split; [exact Hcode | split; [exact Hlen|]].
  destruct Hunknown as [before [c [after [_ [_ [_ [Hfirst Hraise]]]]]]].
  - simpl. intros [_ [_ [H _]]]. discriminate.
  - rewrite Hraise. simpl in Hfirst. injection Hfirst as _ <-. reflexivity.
Defined.

Lemma average_length_failures_witness :
  exists key,
    In key ["A"; "Z"] /\ dict_mem key [("A", "0"); ("B", "1")] = false /\
    calculate_average_length [("A", "0"); ("B", "1")] ["A"; "Z"]
      [0.5; 0.5]%float = Raise (KeyError key).
Proof.
  destruct (average_length_failures [("A", "0"); ("B", "1")] ["A"; "Z"]
              [0.5; 0.5]%float) as [Hmissing _].
  apply Hmissing; [reflexivity|].
  exists "Z". split; [simpl; auto | reflexivity].
Defined.

(** The worked example: weights [0.5, 0.25, 0.125, 0.125] give codewords of
    lengths 1, 2, 3 and 3, an average length of [1.75] and a Kraft sum of
    exactly [1.0]. *)
Example worked_example :
  exists tree,
    build_float example_symbols example_probs = Ok (Some tree) /\
    generate_huffman_codes (Some tree) =
    Ok [("A", "0"); ("B", "10"); ("C", "110"); ("D", "111")] /\
    calculate_average_length
      [("A", "0"); ("B", "10"); ("C", "110"); ("D", "111")]
      example_symbols example_probs = Ok 1.75%float /\
    check_kraft_inequality
      [("A", "0"); ("B", "10"); ("C", "110"); ("D", "111")] =
    (true, 1%float).
Proof.
  eexists. split; [vm_compute; reflexivity|].
  split; [vm_compute; reflexivity|].
  split; vm_compute; reflexivity.
Qed.

(** The error scenarios of the decoder on the tree of ["0"], ["10"],
    ["11"]. *)
Example decode_error_scenarios :
  decode_string "012" tree_ABC = Raise (ValueError_invalid_bit "2") /\
  decode_string "01" tree_ABC = Raise ValueError_incomplete /\
  decode_string "0" leaf_A = Raise ValueError_malformed_tree /\
  decode_string "010" tree_ABC = Ok "AB".
Proof. repeat split. Qed.

(** * Further properties of the engine *)

(** ** The shape of a built tree *)

Section TreeShape.

Variable weight : Type.
Variable weight_lt : weight -> weight -> bool.
Variable weight_add : weight -> weight -> weight.

Local Abbreviation node := (HuffmanNode weight).

(** The nodes the builder creates: a leaf carries a symbol and no child, a
    parent carries no symbol, two children and the sum of their weights. *)
Inductive proper : node -> Prop :=
  | proper_leaf s p : proper (Node (Some s) p None None)
  | proper_parent l r :
      proper l -> proper r -> proper (merge_nodes weight_add l r).

(** The leaves from left to right, with their weights. *)
Fixpoint weighted_leaves (n : node) : list (string * weight) :=
  match n with
  | Node (Some s) p _ _ => [(s, p)]
  | Node None _ l r =>
      match l with Some n' => weighted_leaves n' | None => [] end ++
      match r with Some n' => weighted_leaves n' | None => [] end
  end.

(** The number of nodes without a symbol, one per iteration of the loop. *)
Fixpoint count_parents (n : node) : nat :=
  match n with
  | Node (Some _) _ _ _ => 0
  | Node None _ l r =>
      S (match l with Some n' => count_parents n' | None => 0 end +
         match r with Some n' => count_parents n' | None => 0 end)
  end.

Lemma leaf_symbols_weighted_leaves (n : node) :
  leaf_symbols n = map fst (weighted_leaves n).
Proof.
  induction n as [s p l r IHl IHr] using HuffmanNode_induction.
  destruct s as [s|]; simpl; [reflexivity|].
  rewrite map_app. destruct l, r; simpl in *; congruence.
Qed.

Lemma proper_count (n : node) :
  proper n -> List.length (weighted_leaves n) = S (count_parents n).
Proof.
  induction 1 as [s p | l r Hl IHl Hr IHr]; simpl; [reflexivity|].
  rewrite length_app, IHl, IHr. lia.
Qed.

Lemma initial_nodes_proper (symbols : list string) (probs : list weight) :
  Forall proper (initial_nodes symbols probs).
Proof.
  revert probs. induction symbols as [|s symbols IH]; intros [|p probs];
    simpl; constructor; [constructor | apply IH].
Qed.

Lemma initial_nodes_weighted_leaves (symbols : list string)
    (probs : list weight) :
  List.length symbols = List.length probs ->
  flat_map weighted_leaves (initial_nodes symbols probs) =
  combine symbols probs.
Proof.
  revert probs. induction symbols as [|s symbols IH]; intros [|p probs];
    simpl; intros H; try discriminate; [reflexivity|].
  rewrite IH; [reflexivity | lia].
Qed.

(** The loop keeps the nodes proper and the weighted leaves of the
    forest. *)
Lemma merge_loop_shape (pairs : list (string * weight)) (nodes : list node) :
  Forall proper nodes ->
  Permutation (flat_map weighted_leaves nodes) pairs ->
  exists out,
    merge_loop weight_lt weight_add nodes = Ok out /\
    Forall proper out /\
    Permutation (flat_map weighted_leaves out) pairs /\
    List.length out <= 1 /\ (nodes <> [] -> out <> []).
Proof.
  intros Hproper Hleaves.
  destruct (@merge_loop_invariant weight weight_lt weight_add
              (fun l => Forall proper l /\
                        Permutation (flat_map weighted_leaves l) pairs))
    with (nodes := nodes) as [out [Hout [[H1 H2] [H3 H4]]]].
  - intros l [H1 H2]. split.
    + apply (Permutation_Forall
               (Permutation_sym (sort_by_perm weight_lt (@prob weight) l))).
      exact H1.
    + rewrite <- H2. apply Permutation_flat_map. apply sort_by_perm.
  - intros l r rest [H1 H2].
    inversion H1 as [|? ? Hl H1']; subst.
    inversion H1' as [|? ? Hr Hrest]; subst. split.
    + apply Forall_app. split; [exact Hrest|].
      repeat constructor; assumption.
    + rewrite <- H2. rewrite flat_map_app. simpl. rewrite app_nil_r.
      rewrite (app_assoc (weighted_leaves l)). apply Permutation_app_comm.
  - split; assumption.
  - exists out. auto.
Qed.

(** What the builder returns for a non-empty alphabet, in full. *)
Lemma build_shape (symbols : list string) (probs : list weight)
    (tree : node) :
  build_huffman_tree weight_lt weight_add symbols probs = Ok (Some tree) ->
  List.length symbols = List.length probs /\
  proper tree /\
  Permutation (weighted_leaves tree) (combine symbols probs).
Proof.
  unfold build_huffman_tree.
  destruct (Nat.eqb_spec (List.length symbols) (List.length probs))
    as [Hlen|Hlen]; simpl; [|discriminate].
  destruct (@merge_loop_shape (combine symbols probs)
              (initial_nodes symbols probs))
    as [out [Hout [Hproper [Hleaves [Hshort _]]]]].
  - apply initial_nodes_proper.
  - rewrite initial_nodes_weighted_leaves by exact Hlen. reflexivity.
  - rewrite Hout. destruct out as [|t [|t' out]]; simpl;
      [discriminate | | simpl in Hshort; lia].
    intros [= <-]. split; [exact Hlen|].
    inversion Hproper; subst. split; [assumption|].
    simpl in Hleaves. rewrite app_nil_r in Hleaves. exact Hleaves.
Qed.

(** X1.  Every tree the builder returns is a full binary tree of the nodes it
    created: a node with a symbol has no child, and a node without a symbol
    has two children and their summed weight. *)
Theorem built_tree_is_proper (symbols : list string) (probs : list weight)
    (tree : node) :
  build_huffman_tree weight_lt weight_add symbols probs = Ok (Some tree) ->
  proper tree.
Proof. intros H. apply (build_shape _ _ H). Qed.

(** X2.  The leaves of the returned tree, with their weights, are the input
    pairs (symbol, weight) up to order, and the tree has one parent less than
    it has leaves: the loop merged [len(symbols) - 1] times. *)
Theorem built_tree_leaves (symbols : list string) (probs : list weight)
    (tree : node) :
  build_huffman_tree weight_lt weight_add symbols probs = Ok (Some tree) ->
  Permutation (weighted_leaves tree) (combine symbols probs) /\
  S (count_parents tree) = List.length symbols.
Proof.
  intros H. destruct (build_shape _ _ H) as [Hlen [Hproper Hperm]].
  split; [exact Hperm|].
  rewrite <- (proper_count Hproper), (Permutation_length Hperm).
  rewrite length_combine, <- Hlen. apply Nat.min_id.
Qed.

(** In a proper tree a codeword is no longer than the number of parents. *)
Lemma reaches_length (n : node) (path k : string) :
  reaches n path k -> String.length path <= count_parents n.
Proof.
  induction 1 as [k p l r | p n r path k _ IH | p l n path k _ IH]; simpl.
  - destruct k; simpl; lia.
  - lia.
  - destruct l; lia.
Qed.

(** X3.  No codeword of the table of a built tree is longer than
    [len(symbols) - 1]. *)
Theorem codeword_length_bound (symbols : list string) (probs : list weight)
    (tree : node) (table : dict) (k c : string) :
  build_huffman_tree weight_lt weight_add symbols probs = Ok (Some tree) ->
  generate_huffman_codes (Some tree) = Ok table ->
  In (k, c) table ->
  S (String.length c) <= List.length symbols.
Proof.
  intros H [= <-] Hin. destruct (build_shape _ _ H) as [Hlen [Hproper Hperm]].
  destruct (generate_table tree) as [_ [_ Hreach]].
  pose proof (reaches_length (Hreach _ _ Hin)) as Hdepth.
  pose proof (proper_count Hproper) as Hcount.
  rewrite (Permutation_length Hperm), length_combine, <- Hlen, Nat.min_id
    in Hcount.
  lia.
Qed.

End TreeShape.

(** ** The table of a tree with distinct symbols *)

From Stdlib Require Import QArith.
Local Close Scope Q_scope.

Section TableOrder.

Variable weight : Type.

Local Abbreviation node := (HuffmanNode weight).

(** The leaves from left to right, each with the path that leads to it from
    a node whose own path is [code]. *)
Fixpoint leaf_codes (n : node) (code : string) : dict :=
  match n with
  | Node (Some s) _ _ _ => [(s, code)]
  | Node None _ l r =>
      match l with Some n' => leaf_codes n' (code +++ "0") | None => [] end ++
      match r with Some n' => leaf_codes n' (code +++ "1") | None => [] end
  end.

Lemma dict_keys_leaf_codes (n : node) :
  forall code, dict_keys (leaf_codes n code) = leaf_symbols n.
Proof.
  induction n as [s p l r IHl IHr] using HuffmanNode_induction.
  intros code. destruct s as [s|]; simpl; [reflexivity|].
  unfold dict_keys in *. rewrite map_app.
  destruct l, r; simpl in *; rewrite ?IHl, ?IHr; reflexivity.
Qed.

Lemma dict_set_fresh (key value : string) (d : dict) :
  dict_mem key d = false -> dict_set key value d = d ++ [(key, value)].
Proof.
  induction d as [|[k v] rest IH]; simpl; [reflexivity|].
  destruct (String.eqb k key); [discriminate|].
  intros H. rewrite (IH H). reflexivity.
Qed.

(** When no symbol of the subtree is written twice, [traverse] appends the
    leaves in order. *)
Lemma traverse_fresh (n : node) :
  forall code codes,
    NoDup (dict_keys codes ++ leaf_symbols n) ->
    traverse n code codes = codes ++ leaf_codes n code.
Proof.
  induction n as [s p l r IHl IHr] using HuffmanNode_induction.
  intros code codes Hnd. destruct s as [s|]; simpl in *.
  - apply dict_set_fresh. apply NoDup_remove_2 in Hnd.
    rewrite app_nil_r in Hnd.
    destruct (dict_mem s codes) eqn:E; [|reflexivity].
    apply dict_mem_keys in E. contradiction.
  - assert (Hleft : NoDup (dict_keys codes ++
                           match l with
                           | Some n' => leaf_symbols n'
                           | None => []
                           end)).
    { rewrite app_assoc in Hnd. apply NoDup_app_remove_r in Hnd. exact Hnd. }
    assert (Hfirst :
              match l with
              | Some n => traverse n (code +++ "0") codes
              | None => codes
              end =
              codes ++ match l with
                       | Some n' => leaf_codes n' (code +++ "0")
                       | None => []
                       end).
    { destruct l as [nl|]; simpl in *;
        [apply IHl; exact Hleft | rewrite app_nil_r; reflexivity]. }
    rewrite Hfirst. destruct r as [nr|]; simpl in *.
    + rewrite IHr; [rewrite app_assoc; reflexivity|].
      unfold dict_keys. rewrite map_app. fold (dict_keys codes).
      destruct l as [nl|]; simpl in *.
      * fold (dict_keys (leaf_codes nl (code +++ "0"))).
        rewrite dict_keys_leaf_codes, <- app_assoc. exact Hnd.
      * rewrite app_nil_r. exact Hnd.
    + rewrite app_nil_r. reflexivity.
Qed.

Lemma leaf_codes_reaches (n : node) :
  forall code key path,
    reaches n path key -> In (key, code +++ path) (leaf_codes n code).
Proof.
  intros code key path H. revert code.
  induction H as [k p l r | p n r path k _ IH | p l n path k _ IH];
    intros code; simpl.
  - rewrite append_nil_r. auto.
  - apply in_or_app. left.
    specialize (IH (code +++ "0")). rewrite append_assoc in IH. exact IH.
  - apply in_or_app. right.
    specialize (IH (code +++ "1")). rewrite append_assoc in IH. exact IH.
Qed.

(** The exact Kraft sum of a table, in rational arithmetic. *)
Fixpoint half_power (n : nat) : Q :=
  match n with
  | O => 1%Q
  | S k => ((1 # 2) * half_power k)%Q
  end.

Fixpoint exact_kraft_sum (codes : dict) : Q :=
  match codes with
  | [] => 0%Q
  | (_, code) :: rest =>
      (half_power (String.length code) + exact_kraft_sum rest)%Q
  end.

Lemma half_power_nonneg (n : nat) : (0 <= half_power n)%Q.
Proof.
  induction n as [|n IH]; simpl; [discriminate|].
  apply Qmult_le_0_compat; [discriminate | exact IH].
Qed.

Lemma exact_kraft_sum_app (a b : dict) :
  (exact_kraft_sum (a ++ b) == exact_kraft_sum a + exact_kraft_sum b)%Q.
Proof.
  induction a as [|[k c] a IH]; simpl; [ring|]. rewrite IH. ring.
Qed.

Lemma exact_kraft_sum_nonneg (codes : dict) :
  (0 <= exact_kraft_sum codes)%Q.
Proof.
  induction codes as [|[k c] rest IH]; simpl; [discriminate|].
  rewrite <- (Qplus_0_r 0%Q).
  apply Qplus_le_compat; [apply half_power_nonneg | exact IH].
Qed.

Lemma half_power_append (code : string) (b : string) :
  String.length b = 1 ->
  (half_power (String.length (code +++ b)) ==
   (1 # 2) * half_power (String.length code))%Q.
Proof.
  intros Hb. rewrite length_append, Hb, Nat.add_comm. reflexivity.
Qed.

(** The leaves below a node weigh at most the node's own share, and exactly
    that in a proper tree. *)
Lemma leaf_codes_kraft_le (n : node) :
  forall code,
    (exact_kraft_sum (leaf_codes n code) <=
     half_power (String.length code))%Q.
Proof.
  induction n as [s p l r IHl IHr] using HuffmanNode_induction.
  intros code. destruct s as [s|]; simpl.
  - rewrite Qplus_0_r. apply Qle_refl.
  - rewrite exact_kraft_sum_app.
    assert (Hsplit : (half_power (String.length code) ==
                      (1 # 2) * half_power (String.length code) +
                      (1 # 2) * half_power (String.length code))%Q) by ring.
    rewrite Hsplit. apply Qplus_le_compat.
    + destruct l as [nl|]; simpl in *.
      * rewrite <- (half_power_append code "0" eq_refl). apply IHl.
      * apply Qmult_le_0_compat; [discriminate | apply half_power_nonneg].
    + destruct r as [nr|]; simpl in *.
      * rewrite <- (half_power_append code "1" eq_refl). apply IHr.
      * apply Qmult_le_0_compat; [discriminate | apply half_power_nonneg].
Qed.

End TableOrder.

Section TableOfBuiltTree.

Variable weight : Type.
Variable weight_lt : weight -> weight -> bool.
Variable weight_add : weight -> weight -> weight.

Local Abbreviation node := (HuffmanNode weight).

Lemma leaf_codes_kraft_eq (n : node) :
  proper weight_add n ->
  forall code,
    (exact_kraft_sum (leaf_codes n code) ==
     half_power (String.length code))%Q.
Proof.
  induction 1 as [s p | l r Hl IHl Hr IHr]; intros code; simpl.
  - ring.
  - rewrite exact_kraft_sum_app, IHl, IHr.
    rewrite (half_power_append code "0" eq_refl).
    rewrite (half_power_append code "1" eq_refl). ring.
Qed.

(** A table without repeated entries that is part of another sums to no
    more. *)
Lemma exact_kraft_sum_incl (a : dict) :
  forall b,
    NoDup a -> incl a b -> (exact_kraft_sum a <= exact_kraft_sum b)%Q.
Proof.
  induction a as [|[k c] a IH]; intros b Hnd Hincl; simpl.
  - apply exact_kraft_sum_nonneg.
  - inversion Hnd as [|? ? Hnotin Hnd']; subst.
    destruct (in_split (k, c) b (Hincl _ (or_introl eq_refl)))
      as [b1 [b2 ->]].
    assert (Hrest : incl a (b1 ++ b2)).
    { intros x Hx. pose proof (Hincl x (or_intror Hx)) as H.
      apply in_app_or in H. apply in_or_app.
      destruct H as [H|[H|H]]; [auto | subst; contradiction | auto]. }
    pose proof (IH (b1 ++ b2) Hnd' Hrest) as Hle.
    rewrite exact_kraft_sum_app in Hle. rewrite exact_kraft_sum_app. simpl.
    apply (Qplus_le_compat _ _ _ _ (Qle_refl (half_power (String.length c))))
      in Hle.
    eapply Qle_trans; [exact Hle|]. apply Qle_lteq. right. ring.
Qed.

Lemma NoDup_keys_NoDup (d : dict) : NoDup (dict_keys d) -> NoDup d.
Proof. apply NoDup_map_inv. Qed.

Lemma traverse_incl_leaf_codes (tree : node) :
  incl (traverse tree "" []) (leaf_codes tree "").
Proof.
  destruct (generate_table tree) as [_ [_ Hreach]].
  intros [k c] H. apply (leaf_codes_reaches "" (Hreach _ _ H)).
Qed.

Lemma built_leaf_symbols (symbols : list string) (probs : list weight)
    (tree : node) :
  build_huffman_tree weight_lt weight_add symbols probs = Ok (Some tree) ->
  Permutation (leaf_symbols tree) symbols.
Proof.
  intros H. destruct (@build_shape _ _ _ _ _ _ H) as [Hlen [_ Hperm]].
  rewrite leaf_symbols_weighted_leaves.
  rewrite (Permutation_map fst Hperm).
  clear -Hlen. revert probs Hlen.
  induction symbols as [|s symbols IH]; intros [|p probs] Hlen;
    try discriminate; simpl; [reflexivity|].
  constructor. apply IH. simpl in Hlen. lia.
Qed.

(** X4.  When the symbols are pairwise distinct, the table lists the leaves
    of the tree from left to right, each with its path from the root: a
    symbol's codeword is exactly the path to its leaf. *)
Theorem table_lists_leaves (symbols : list string) (probs : list weight)
    (tree : node) (table : dict) :
  build_huffman_tree weight_lt weight_add symbols probs = Ok (Some tree) ->
  generate_huffman_codes (Some tree) = Ok table ->
  NoDup symbols ->
  table = leaf_codes tree "" /\
  dict_keys table = leaf_symbols tree /\
  (forall k path, reaches tree path k <-> dict_get k table = Some path).
Proof.
  intros Hbuild [= <-] Hnd.
  assert (Hleaves : NoDup (leaf_symbols tree)).
  { apply (Permutation_NoDup
             (Permutation_sym (built_leaf_symbols _ _ Hbuild)) Hnd). }
  assert (Htable : traverse tree "" [] = leaf_codes tree "").
  { apply (traverse_fresh tree "" []). exact Hleaves. }
  destruct (generate_table tree) as [Hkeys [_ Hreach]].
  split; [exact Htable | split].
  - rewrite Htable. apply dict_keys_leaf_codes.
  - intros k path. rewrite <- (@dict_get_In k path _ Hkeys). split.
    + intros H. rewrite Htable. apply (leaf_codes_reaches "" H).
    + apply Hreach.
Qed.

(** X5.  The exact Kraft sum of the table of a built tree, the sum of
    [2^(-length)] over its codewords in rational arithmetic, is at most [1],
    and equal to [1] when the symbols are pairwise distinct (also for a
    single symbol, whose empty codeword counts for [1]). *)
Theorem exact_kraft_sum_of_table (symbols : list string)
    (probs : list weight) (tree : node) (table : dict) :
  build_huffman_tree weight_lt weight_add symbols probs = Ok (Some tree) ->
  generate_huffman_codes (Some tree) = Ok table ->
  (exact_kraft_sum table <= 1)%Q /\
  (NoDup symbols -> (exact_kraft_sum table == 1)%Q).
Proof.
  intros Hbuild [= <-].
  destruct (@build_shape _ _ _ _ _ _ Hbuild) as [_ [Hproper _]].
  destruct (generate_table tree) as [Hkeys _].
  split.
  - eapply Qle_trans.
    + apply exact_kraft_sum_incl;
        [apply NoDup_keys_NoDup; exact Hkeys | apply traverse_incl_leaf_codes].
    + apply (leaf_codes_kraft_le tree "").
  - intros Hnd.
    assert (Hleaves : NoDup (leaf_symbols tree)).
    { apply (Permutation_NoDup
               (Permutation_sym (built_leaf_symbols _ _ Hbuild)) Hnd). }
    rewrite (traverse_fresh tree "" [] Hleaves). simpl.
    apply (leaf_codes_kraft_eq Hproper "").
Qed.

End TableOfBuiltTree.

(** ** Encoding and decoding piece by piece *)

Lemma encode_loop_from (s : string) (codes : dict) :
  forall encoded,
    encode_loop s codes encoded =
    match encode_loop s codes "" with
    | Ok bits => Ok (encoded +++ bits)
    | Raise e => Raise e
    end.
Proof.
  induction s as [|c s IH]; simpl; intros encoded.
  - rewrite append_nil_r. reflexivity.
  - destruct (dict_mem (str_of_char c) codes); [|reflexivity].
    destruct (dict_get (str_of_char c) codes) as [code|]; [|reflexivity].
    rewrite (IH (encoded +++ code)), (IH code).
    destruct (encode_loop s codes "") as [bits|e]; [|reflexivity].
    rewrite append_assoc. reflexivity.
Qed.

Lemma encode_loop_append (s t : string) (codes : dict) :
  forall encoded,
    encode_loop (s +++ t) codes encoded =
    match encode_loop s codes encoded with
    | Ok bits => encode_loop t codes bits
    | Raise e => Raise e
    end.
Proof.
  induction s as [|c s IH]; simpl; intros encoded; [reflexivity|].
  destruct (dict_mem (str_of_char c) codes); [|reflexivity].
  destruct (dict_get (str_of_char c) codes) as [code|]; [|reflexivity].
  apply IH.
Qed.

(** X6.  Encoding a concatenation is encoding the parts and concatenating
    the results; it fails with the error of the first part that fails. *)
Theorem encode_string_append (s t : string) (codes : dict) :
  encode_string (s +++ t) codes =
  match encode_string s codes with
  | Ok bits_s =>
      match encode_string t codes with
      | Ok bits_t => Ok (bits_s +++ bits_t)
      | Raise e => Raise e
      end
  | Raise e => Raise e
  end.
Proof.
  unfold encode_string. rewrite encode_loop_append.
  destruct (encode_loop s codes "") as [bits_s|e]; [|reflexivity].
  apply encode_loop_from.
Qed.

Section DecoderAlgebra.

Variable weight : Type.

Local Abbreviation node := (HuffmanNode weight).

Lemma decode_bits_append (root : node) (b1 b2 : string) :
  forall st,
    decode_bits root st (b1 +++ b2) =
    match decode_bits root st b1 with
    | Ok st' => decode_bits root st' b2
    | Raise e => Raise e
    end.
Proof.
  induction b1 as [|b b1 IH]; simpl; intros st; [reflexivity|].
  destruct (decode_step root st b) as [st'|e]; [apply IH | reflexivity].
Qed.

(** The output already produced is only ever extended. *)
Definition with_output (d : string) (st : decoder_state weight)
  : decoder_state weight :=
  mk_state (d +++ decoded st) (current_node st) (at_root st).

Lemma decode_step_output (root : node) (d : string)
    (st : decoder_state weight) (b : ascii) :
  decode_step root (with_output d st) b =
  match decode_step root st b with
  | Ok st' => Ok (with_output d st')
  | Raise e => Raise e
  end.
Proof.
  unfold decode_step, arrive, with_output. simpl.
  destruct (Ascii.eqb b "0").
  - destruct (left (current_node st)) as [n|]; [|reflexivity].
    destruct (symbol n); simpl; rewrite ?append_assoc; reflexivity.
  - destruct (Ascii.eqb b "1"); [|reflexivity].
    destruct (right (current_node st)) as [n|]; [|reflexivity].
    destruct (symbol n); simpl; rewrite ?append_assoc; reflexivity.
Qed.

Lemma decode_bits_output (root : node) (d : string) (bits : string) :
  forall st,
    decode_bits root (with_output d st) bits =
    match decode_bits root st bits with
    | Ok st' => Ok (with_output d st')
    | Raise e => Raise e
    end.
Proof.
  induction bits as [|b bits IH]; simpl; intros st; [reflexivity|].
  rewrite decode_step_output.
  destruct (decode_step root st b) as [st'|e]; [apply IH | reflexivity].
Qed.

(** After a complete decoding the state is the initial one but for the
    output. *)
Lemma decode_bits_back_at_root (root : node) (bits : string)
    (st : decoder_state weight) :
  decode_bits root (initial_state root) bits = Ok st ->
  at_root st = true ->
  current_node st = root.
Proof.
  intros Hloop Hflag.
  destruct (@decode_bits_stands_at _ root bits (initial_state root) st "" "")
    as [consumed [pending [_ [Hnode Hpending]]]].
  - split; simpl; tauto.
  - exact Hloop.
  - pose proof (proj1 Hpending Hflag) as Hempty. subst pending.
    simpl in Hnode. congruence.
Qed.

(** X7.  If a bitstring decodes, then decoding it followed by a second
    bitstring gives its output followed by the result of decoding the
    second: the decoder restarts at every codeword boundary. *)
Theorem decode_string_append (root : node) (b1 b2 s1 : string) :
  decode_string b1 root = Ok s1 ->
  decode_string (b1 +++ b2) root =
  match decode_string b2 root with
  | Ok s2 => Ok (s1 +++ s2)
  | Raise e => Raise e
  end.
Proof.
  unfold decode_string. rewrite decode_bits_append.
  destruct (decode_bits root (initial_state root) b1) as [st|e] eqn:Hloop;
    [|discriminate].
  destruct (at_root st) eqn:Hflag; [|discriminate].
  intros [= <-].
  pose proof (decode_bits_back_at_root root b1 Hloop Hflag) as Hnode.
  destruct st as [d n f]. simpl in *. subst n f.
  replace (mk_state d root true) with (with_output d (initial_state root))
    by (unfold with_output; simpl; rewrite append_nil_r; reflexivity).
  rewrite decode_bits_output.
  destruct (decode_bits root (initial_state root) b2) as [st2|e];
    [|reflexivity].
  simpl. destruct (at_root st2); reflexivity.
Qed.

Lemma decode_bits_binary (root : node) (bits : string) :
  forall st st',
    decode_bits root st bits = Ok st' -> binary_digits bits.
Proof.
  induction bits as [|b bits IH]; simpl; intros st st' H; [exact I|].
  destruct (decode_step root st b) as [st1|e] eqn:Hstep; [|discriminate].
  split; [|apply (IH _ _ H)].
  unfold decode_step in Hstep.
  destruct (Ascii.eqb_spec b "0"); [auto|].
  destruct (Ascii.eqb_spec b "1"); [auto | discriminate].
Qed.

(** X8.  Whatever the tree, a bitstring that decodes consists of the
    characters ['0'] and ['1'] only: the decoder never skips a character. *)
Theorem decode_string_accepts_binary_only (root : node) (bits s : string) :
  decode_string bits root = Ok s -> binary_digits bits.
Proof.
  unfold decode_string.
  destruct (decode_bits root (initial_state root) bits) as [st|e] eqn:Hloop;
    [|discriminate].
  intros _. apply (decode_bits_binary _ _ _ Hloop).
Qed.

End DecoderAlgebra.

(** ** Decoding over a built tree *)

Section DecoderOnBuiltTree.

Variable weight : Type.
Variable weight_lt : weight -> weight -> bool.
Variable weight_add : weight -> weight -> weight.

Local Abbreviation node := (HuffmanNode weight).

Lemma proper_parent_inv (n : node) :
  proper weight_add n ->
  symbol n = None ->
  exists l r,
    left n = Some l /\ right n = Some r /\
    proper weight_add l /\ proper weight_add r.
Proof.
  destruct 1 as [s p | l r Hl Hr]; simpl; [discriminate|].
  intros _. exists l, r. auto.
Qed.

(** From a parent of a proper tree a step on a valid bit never falls off the
    tree, and lands on the root or on another parent. *)
Lemma decode_step_proper (root : node) (st : decoder_state weight)
    (b : ascii) :
  proper weight_add root -> symbol root = None ->
  proper weight_add (current_node st) -> symbol (current_node st) = None ->
  (b = "0"%char \/ b = "1"%char) ->
  exists st',
    decode_step root st b = Ok st' /\
    proper weight_add (current_node st') /\
    symbol (current_node st') = None.
Proof.
  intros Hroot Hsym Hcur Hcursym Hb.
  destruct (proper_parent_inv Hcur Hcursym) as [l [r [Hl [Hr [Hpl Hpr]]]]].
  unfold decode_step, arrive.
  destruct Hb as [-> | ->]; simpl; rewrite ?Hl, ?Hr.
  - destruct (symbol l) eqn:E; eexists; simpl; eauto.
  - destruct (symbol r) eqn:E; eexists; simpl; eauto.
Qed.

Lemma decode_bits_proper (root : node) (bits : string) :
  proper weight_add root -> symbol root = None ->
  binary_digits bits ->
  forall st,
    proper weight_add (current_node st) -> symbol (current_node st) = None ->
    exists st', decode_bits root st bits = Ok st'.
Proof.
  intros Hroot Hsym. induction bits as [|b bits IH]; simpl;
    intros Hbits st Hcur Hcursym; [eauto|].
  destruct Hbits as [Hb Hbits].
  destruct (decode_step_proper st Hroot Hsym Hcur Hcursym Hb)
    as [st1 [-> [H1 H2]]].
  apply (IH Hbits st1 H1 H2).
Qed.

(** X9.  Over the tree built for an alphabet of at least two symbols, a
    bitstring of ['0'] and ['1'] characters either decodes or fails as
    incomplete: the decoder never reports a malformed tree or an invalid
    bit. *)
Theorem decode_built_tree_outcomes (symbols : list string)
    (probs : list weight) (tree : node) (bits : string) :
  build_huffman_tree weight_lt weight_add symbols probs = Ok (Some tree) ->
  2 <= List.length symbols ->
  binary_digits bits ->
  (exists s, decode_string bits tree = Ok s) \/
  decode_string bits tree = Raise ValueError_incomplete.
Proof.
  intros Hbuild Htwo Hbits.
  destruct (@build_shape _ _ _ _ _ _ Hbuild) as [Hlen [Hproper _]].
  assert (Hsym : symbol tree = None).
  { destruct (@build_huffman_tree_ok _ weight_lt weight_add symbols probs
                Hlen) as [tree' [Hbuild' [_ Hroot]]].
    - destruct symbols; [simpl in Htwo; lia | discriminate].
    - rewrite Hbuild in Hbuild'. injection Hbuild' as <-. apply Hroot, Htwo. }
  destruct (@decode_bits_proper tree bits Hproper Hsym Hbits
              (initial_state tree) Hproper Hsym) as [st Hloop].
  unfold decode_string. rewrite Hloop.
  destruct (at_root st); [left; eauto | right; reflexivity].
Qed.

(** X10.  Over the tree of a single-symbol alphabet, which is a lone leaf,
    only the empty bitstring decodes, and it decodes to the empty string:
    every other bitstring fails, so no non-empty string can be recovered. *)
Theorem decode_lone_leaf (a : string) (p : weight) (bits s : string) :
  build_huffman_tree weight_lt weight_add [a] [p] =
  Ok (Some (new_node (Some a) p)) /\
  (decode_string bits (new_node (Some a) p) = Ok s <->
   bits = "" /\ s = "").
Proof.
  split; [apply build_single|]. split.
  - destruct bits as [|b bits]; [intros [= <-]; auto|].
    unfold decode_string. simpl. unfold decode_step. simpl.
    destruct (Ascii.eqb b "0"); [discriminate|].
    destruct (Ascii.eqb b "1"); discriminate.
  - intros [-> ->]. reflexivity.
Qed.

End DecoderOnBuiltTree.

(** ** From decoding back to encoding *)

Lemma concat_codewords_append (s t : string) (codes : dict) :
  concat_codewords (s +++ t) codes =
  concat_codewords s codes +++ concat_codewords t codes.
Proof.
  induction s as [|c s IH]; simpl; [reflexivity|].
  rewrite IH, append_assoc. reflexivity.
Qed.

Lemma all_chars_append (P : ascii -> Prop) (s t : string) :
  all_chars P s -> all_chars P t -> all_chars P (s +++ t).
Proof.
  induction s as [|c s IH]; simpl; intros Hs Ht; [exact Ht|].
  destruct Hs as [Hc Hs]. split; auto.
Qed.

Section DecodeThenEncode.

Variable weight : Type.
Variable weight_lt : weight -> weight -> bool.
Variable weight_add : weight -> weight -> weight.

Local Abbreviation node := (HuffmanNode weight).

(** In a proper tree a path that ends on a node with a symbol has met no
    other symbol on its way. *)
Lemma node_at_reaches (root : node) :
  proper weight_add root ->
  forall path n k,
    node_at root path = Some n -> symbol n = Some k -> reaches root path k.
Proof.
  induction 1 as [s p | l r Hl IHl Hr IHr]; intros path n k Hat Hk.
  - destruct path as [|b path]; simpl in Hat.
    + injection Hat as <-. simpl in Hk. injection Hk as <-. constructor.
    + destruct (Ascii.eqb b "0"); [discriminate|].
      destruct (Ascii.eqb b "1"); discriminate.
  - destruct path as [|b path]; simpl in Hat.
    + injection Hat as <-. discriminate.
    + destruct (Ascii.eqb_spec b "0") as [->|H0].
      * apply reaches_left. apply (IHl _ _ _ Hat Hk).
      * destruct (Ascii.eqb_spec b "1") as [->|H1]; [|discriminate].
        apply reaches_right. apply (IHr _ _ _ Hat Hk).
Qed.

(** With distinct leaf symbols, the path to a leaf is the codeword of its
    symbol. *)
Lemma table_complete (tree : node) (path k : string) :
  NoDup (leaf_symbols tree) ->
  reaches tree path k ->
  dict_get k (traverse tree "" []) = Some path.
Proof.
  intros Hnd Hreach.
  destruct (generate_table tree) as [Hkeys _].
  apply (proj1 (@dict_get_In k path _ Hkeys)).
  rewrite (traverse_fresh tree "" [] Hnd). simpl.
  apply (leaf_codes_reaches "" Hreach).
Qed.

(** A successful step moves to a child, and either emits its symbol and
    resets, or stays on it. *)
Lemma decode_step_child (root : node) (st st' : decoder_state weight)
    (b : ascii) :
  decode_step root st b = Ok st' ->
  exists n,
    node_at (current_node st) (str_of_char b) = Some n /\
    ((exists s, symbol n = Some s /\
                st' = mk_state (decoded st +++ s) root true) \/
     (symbol n = None /\ st' = mk_state (decoded st) n false)).
Proof.
  unfold decode_step, arrive. simpl.
  destruct (Ascii.eqb b "0").
  - destruct (left (current_node st)) as [n|]; [|discriminate].
    intros H. exists n. split; [reflexivity|].
    destruct (symbol n) as [s|]; injection H as <-; eauto.
  - destruct (Ascii.eqb b "1"); [|discriminate].
    destruct (right (current_node st)) as [n|]; [|discriminate].
    intros H. exists n. split; [reflexivity|].
    destruct (symbol n) as [s|]; injection H as <-; eauto.
Qed.

(** The bits read so far are the codewords of the output followed by the
    pending bits, which lead from the root to the current node. *)
Definition decoded_from (tree : node) (table : dict)
    (st : decoder_state weight) (consumed pending : string) : Prop :=
  consumed = concat_codewords (decoded st) table +++ pending /\
  node_at tree pending = Some (current_node st) /\
  (at_root st = true -> pending = "") /\
  all_chars (fun c => dict_mem (str_of_char c) table = true) (decoded st).

Lemma decode_bits_decoded_from (tree : node) (bits : string) :
  proper weight_add tree ->
  NoDup (leaf_symbols tree) ->
  (forall k, In k (leaf_symbols tree) -> exists c, k = str_of_char c) ->
  forall st st' consumed pending,
    decoded_from tree (traverse tree "" []) st consumed pending ->
    decode_bits tree st bits = Ok st' ->
    exists pending',
      decoded_from tree (traverse tree "" []) st' (consumed +++ bits)
                   pending'.
Proof.
  intros Hproper Hnd Hsingle.
  destruct (generate_table tree) as [_ [Hkeys _]].
  induction bits as [|b bits IH]; simpl;
    intros st st' consumed pending Hinv Hloop.
  - injection Hloop as <-. exists pending. rewrite append_nil_r. exact Hinv.
  - destruct (decode_step tree st b) as [st1|e] eqn:Hstep; [|discriminate].
    destruct Hinv as [Hconsumed [Hnode [Hflag Hall]]].
    destruct (decode_step_child _ _ _ Hstep)
      as [n [Hchild [[s [Hs ->]]|[Hs ->]]]];
      rewrite <- (node_at_append tree pending b Hnode) in Hchild.
    + pose proof (node_at_reaches Hproper _ Hchild Hs) as Hreach.
      pose proof (table_complete Hnd Hreach) as Hget.
      assert (Hin : In s (leaf_symbols tree)).
      { apply Hkeys. apply dict_mem_keys. apply dict_mem_get. eauto. }
      destruct (Hsingle s Hin) as [c ->].
      destruct (IH (mk_state (decoded st +++ str_of_char c) tree true) st'
                   (consumed +++ str_of_char b) "") as [pending' Hinv'].
      * split; [|split; [|split]]; simpl.
        -- rewrite concat_codewords_append. simpl. unfold codeword_of.
           rewrite Hget, Hconsumed, !append_assoc, !append_nil_r.
           reflexivity.
        -- reflexivity.
        -- reflexivity.
        -- apply all_chars_append; [exact Hall|]. simpl. split; [|exact I].
           apply dict_mem_get. eauto.
      * exact Hloop.
      * exists pending'. rewrite append_assoc in Hinv'. exact Hinv'.
    + destruct (IH (mk_state (decoded st) n false) st'
                   (consumed +++ str_of_char b) (pending +++ str_of_char b))
        as [pending' Hinv'].
      * split; [|split; [|split]]; simpl.
        -- rewrite Hconsumed, append_assoc. reflexivity.
        -- exact Hchild.
        -- discriminate.
        -- exact Hall.
      * exact Hloop.
      * exists pending'. rewrite append_assoc in Hinv'. exact Hinv'.
Qed.

(** X11.  For an alphabet of pairwise distinct one-character symbols, a
    bitstring that decodes to [s] over the built tree is what [s] encodes to
    with the tree's table: decoding is undone by encoding. *)
Theorem encode_after_decode (symbols : list string) (probs : list weight)
    (tree : node) (table : dict) (bits s : string) :
  build_huffman_tree weight_lt weight_add symbols probs = Ok (Some tree) ->
  generate_huffman_codes (Some tree) = Ok table ->
  NoDup symbols ->
  Forall (fun k => exists c, k = str_of_char c) symbols ->
  decode_string bits tree = Ok s ->
  encode_string s table = Ok bits.
Proof.
  intros Hbuild [= <-] Hnd Hsingle.
  destruct (@build_shape _ _ _ _ _ _ Hbuild) as [_ [Hproper _]].
  pose proof (@built_leaf_symbols _ _ _ _ _ _ Hbuild) as Hperm.
  assert (Hleaves : NoDup (leaf_symbols tree)).
  { apply (Permutation_NoDup (Permutation_sym Hperm) Hnd). }
  assert (Hchars : forall k, In k (leaf_symbols tree) ->
                             exists c, k = str_of_char c).
  { intros k Hk. rewrite Forall_forall in Hsingle. apply Hsingle.
    apply (Permutation_in _ Hperm Hk). }
  unfold decode_string.
  destruct (decode_bits tree (initial_state tree) bits) as [st|e] eqn:Hloop;
    [|discriminate].
  destruct (at_root st) eqn:Hflag; [|discriminate]. intros [= <-].
  destruct (@decode_bits_decoded_from tree bits Hproper Hleaves Hchars
              (initial_state tree) st "" "") as [pending [H1 [_ [H3 H4]]]].
  - split; [|split; [|split]]; simpl; auto.
  - exact Hloop.
  - rewrite (H3 Hflag), append_nil_r in H1. simpl in H1. subst bits.
    unfold encode_string. rewrite encode_loop_known by exact H4.
    reflexivity.
Qed.

End DecodeThenEncode.

(** ** Entropy, redundancy and the metrics of a distribution *)

Section Entropy.

(** [math.log2], a function of the Python library, taken as it is: the code
    applies it to one float and uses the float it returns. *)
Variable log2 : float -> float.

(** The [for p in probs] loop of [calculate_entropy]: a negative entry raises,
    a positive entry subtracts [p * math.log2(p)], any other entry is
    skipped. *)
Fixpoint entropy_loop (probs : list float) (entropy : float) : result float :=
  match probs with
  | [] => Ok entropy
  | p :: rest =>
      if (p <? 0)%float then Raise ValueError_negative_probability
      else if (0 <? p)%float then
        entropy_loop rest (entropy - p * log2 p)%float
      else entropy_loop rest entropy
  end.

Definition calculate_entropy (probs : list float) : result float :=
  entropy_loop probs 0%float.

Definition calculate_redundancy (avg_len entropy : float) : float :=
  (avg_len - entropy)%float.

(** The body of the loop over the distributions in [conduct_research], which
    is also the computation of [HuffmanApp.calculate_codes]: tree, table,
    average length, entropy, redundancy, Kraft check, in this order. *)
Record code_report : Type := mk_report {
  report_codes : dict;
  report_avg_len : float;
  report_entropy : float;
  report_redundancy : float;
  report_kraft_ok : bool;
  report_kraft_sum : float
}.

Definition code_metrics (symbols : list string) (probs : list float)
  : result code_report :=
  match build_float symbols probs with
  | Raise e => Raise e
  | Ok root =>
      match generate_huffman_codes root with
      | Raise e => Raise e
      | Ok codes =>
          match calculate_average_length codes symbols probs with
          | Raise e => Raise e
          | Ok avg_len =>
              match calculate_entropy probs with
              | Raise e => Raise e
              | Ok entropy =>
                  let redundancy := calculate_redundancy avg_len entropy in
                  let (kraft_ok, kraft_sum) := check_kraft_inequality codes in
                  Ok (mk_report codes avg_len entropy redundancy
                                kraft_ok kraft_sum)
              end
          end
      end
  end.

Definition negative (p : float) : Prop := (p <? 0)%float = true.

Lemma entropy_loop_negative (probs : list float) :
  Exists negative probs ->
  forall entropy,
    entropy_loop probs entropy = Raise ValueError_negative_probability.
Proof.
  unfold negative.
  induction 1 as [p rest Hp | p rest Hrest IH]; intros entropy; simpl.
  - rewrite Hp. reflexivity.
  - destruct (p <? 0)%float; [reflexivity|].
    destruct (0 <? p)%float; apply IH.
Qed.

Lemma entropy_loop_ok (probs : list float) :
  Forall (fun p => ~ negative p) probs ->
  forall entropy, exists value, entropy_loop probs entropy = Ok value.
Proof.
  unfold negative.
  induction 1 as [|p rest Hp Hrest IH]; intros entropy; simpl; [eauto|].
  destruct (p <? 0)%float; [exfalso; apply Hp; reflexivity|].
  destruct (0 <? p)%float; apply IH.
Qed.

(** X12.  [calculate_entropy] raises its error exactly when some entry
    compares below zero, wherever it stands; with no such entry it returns a
    value. *)
Theorem calculate_entropy_failure (probs : list float) :
  (calculate_entropy probs = Raise ValueError_negative_probability <->
   Exists negative probs) /\
  ((exists value, calculate_entropy probs = Ok value) <->
   Forall (fun p => ~ negative p) probs).
Proof.
  unfold calculate_entropy.
  destruct (Exists_dec negative probs) as [Hneg|Hnone].
  { intros p. unfold negative. destruct (p <? 0)%float; [left | right];
      congruence. }
  - pose proof (entropy_loop_negative Hneg 0%float) as H. split.
    + tauto.
    + split.
      * intros [value Hv]. congruence.
      * intros Hall. exfalso. apply Exists_exists in Hneg.
        destruct Hneg as [p [Hin Hp]].
        rewrite Forall_forall in Hall. apply (Hall p Hin Hp).
  - assert (Hall : Forall (fun p => ~ negative p) probs).
    { apply Forall_Exists_neg. exact Hnone. }
    destruct (entropy_loop_ok Hall 0%float) as [value Hv]. split.
    + split; [congruence | contradiction].
    + split; eauto.
Qed.

(** X13.  Entries that are not positive (zeros of either sign, NaN)
    contribute nothing: without a negative entry, the entropy of a list is
    the entropy of its positive entries. *)
Theorem calculate_entropy_skips_zeros (probs : list float) :
  Forall (fun p => ~ negative p) probs ->
  calculate_entropy probs =
  calculate_entropy (filter (fun p => (0 <? p)%float) probs).
Proof.
  intros Hall. unfold calculate_entropy.
  enough (H : forall entropy,
             entropy_loop probs entropy =
             entropy_loop (filter (fun p => (0 <? p)%float) probs) entropy)
    by apply H.
  unfold negative in Hall.
  induction Hall as [|p rest Hp Hrest IH]; intros entropy; simpl;
    [reflexivity|].
  destruct (p <? 0)%float eqn:Hneg; [exfalso; apply Hp; reflexivity|].
  destruct (0 <? p)%float eqn:Hpos; simpl; [|apply IH].
  rewrite Hneg, Hpos. apply IH.
Qed.

End Entropy.

(** X14.  [math.log2] is only ever applied to floats that compare above zero:
    two logarithms that agree there give the same result, so the call cannot
    hit the domain error of a non-positive argument. *)
Theorem calculate_entropy_calls_log2_on_positives
    (log2 log2' : float -> float) (probs : list float) :
  (forall p, (0 <? p)%float = true -> log2 p = log2' p) ->
  calculate_entropy log2 probs = calculate_entropy log2' probs.
Proof.
  intros Hsame. unfold calculate_entropy.
  enough (H : forall entropy,
             entropy_loop log2 probs entropy =
             entropy_loop log2' probs entropy) by apply H.
  induction probs as [|p rest IH]; intros entropy; simpl; [reflexivity|].
  destruct (p <? 0)%float; [reflexivity|].
  destruct (0 <? p)%float eqn:Hpos; [|apply IH].
  rewrite (Hsame p Hpos). apply IH.
Qed.

(** The first three steps on a well-formed, non-empty request: the tree is
    built, and the average length finds every symbol in the tree's table. *)
Lemma metrics_first_steps (symbols : list string) (probs : list float) :
  List.length symbols = List.length probs ->
  symbols <> [] ->
  exists tree avg_len,
    build_float symbols probs = Ok (Some tree) /\
    calculate_average_length (traverse tree "" []) symbols probs =
    Ok avg_len.
Proof.
  intros Hlen Hne.
  destruct (@build_huffman_tree_ok float PrimFloat.ltb PrimFloat.add
              symbols probs Hlen Hne) as [tree [Hbuild [Hperm _]]].
  destruct (generate_table tree) as [_ [Hkeys _]].
  destruct (average_loop_present (traverse tree "" []) symbols probs 0%float
              Hlen) as [avg_len Havg].
  - intros s Hs. apply dict_mem_keys, Hkeys.
    apply (Permutation_in _ (Permutation_sym Hperm) Hs).
  - exists tree, avg_len. split; [exact Hbuild|].
    unfold calculate_average_length.
    rewrite (proj2 (Nat.eqb_eq _ _) Hlen). exact Havg.
Qed.

(** X15.  The outcome of the metrics computation, case by case: mismatched
    counts fail in the builder, the empty alphabet fails in the code
    generator, a negative probability fails in the entropy after the tree
    was built, and every other request gives a report whose redundancy is
    the average length minus the entropy.  The lookup of a codeword never
    fails. *)
Theorem code_metrics_outcome (log2 : float -> float)
    (symbols : list string) (probs : list float) :
  (List.length symbols <> List.length probs ->
   code_metrics log2 symbols probs = Raise ValueError_count_mismatch) /\
  (symbols = [] -> probs = [] ->
   code_metrics log2 symbols probs = Raise ValueError_empty_tree) /\
  (List.length symbols = List.length probs -> symbols <> [] ->
   Exists negative probs ->
   code_metrics log2 symbols probs =
   Raise ValueError_negative_probability) /\
  (List.length symbols = List.length probs -> symbols <> [] ->
   Forall (fun p => ~ negative p) probs ->
   exists tree report,
     code_metrics log2 symbols probs = Ok report /\
     build_float symbols probs = Ok (Some tree) /\
     generate_huffman_codes (Some tree) = Ok (report_codes report) /\
     calculate_average_length (report_codes report) symbols probs =
     Ok (report_avg_len report) /\
     calculate_entropy log2 probs = Ok (report_entropy report) /\
     report_redundancy report =
     (report_avg_len report - report_entropy report)%float /\
     check_kraft_inequality (report_codes report) =
     (report_kraft_ok report, report_kraft_sum report)).
Proof.
  split; [|split; [|split]].
  - intros Hlen. unfold code_metrics, build_float, build_huffman_tree.
    rewrite (proj2 (Nat.eqb_neq _ _) Hlen). reflexivity.
  - intros -> ->. unfold code_metrics, build_float.
    rewrite build_empty. reflexivity.
  - intros Hlen Hne Hneg.
    destruct (@metrics_first_steps symbols probs Hlen Hne)
      as [tree [avg_len [Hbuild Havg]]].
    unfold code_metrics. rewrite Hbuild. simpl. rewrite Havg.
    unfold calculate_entropy.
    rewrite (entropy_loop_negative log2 Hneg). reflexivity.
  - intros Hlen Hne Hall.
    destruct (@metrics_first_steps symbols probs Hlen Hne)
      as [tree [avg_len [Hbuild Havg]]].
    destruct (entropy_loop_ok log2 Hall 0%float) as [entropy Hentropy].
    unfold code_metrics. rewrite Hbuild. simpl. rewrite Havg.
    unfold calculate_entropy. rewrite Hentropy.
    destruct (check_kraft_inequality (traverse tree "" []))
      as [kraft_ok kraft_sum] eqn:Hkraft.
    exists tree. eexists. split; [reflexivity|]. simpl.
    repeat split; auto.
Qed.

(** ** Repeated symbols, and what the encoder writes *)

Lemma dict_get_app (key : string) (a b : dict) :
  dict_get key (a ++ b) =
  match dict_get key a with
  | Some v => Some v
  | None => dict_get key b
  end.
Proof.
  induction a as [|[k v] a IH]; simpl; [reflexivity|].
  destruct (String.eqb k key); [reflexivity | exact IH].
Qed.

Lemma binary_digits_concat (s t : string) :
  binary_digits s -> binary_digits t -> binary_digits (s +++ t).
Proof.
  induction s as [|c s IH]; simpl; intros Hs Ht; [exact Ht|].
  destruct Hs as [Hc Hs]. split; auto.
Qed.

Lemma encode_loop_ok_known (s : string) (codes : dict) :
  forall encoded bits,
    encode_loop s codes encoded = Ok bits ->
    all_chars (fun c => dict_mem (str_of_char c) codes = true) s.
Proof.
  induction s as [|c s IH]; simpl; intros encoded bits H; [exact I|].
  destruct (dict_mem (str_of_char c) codes); [|discriminate].
  destruct (dict_get (str_of_char c) codes) as [code|]; [|discriminate].
  split; [reflexivity | apply (IH _ _ H)].
Qed.

Section RepeatedSymbols.

Variable weight : Type.
Variable weight_lt : weight -> weight -> bool.
Variable weight_add : weight -> weight -> weight.

Local Abbreviation node := (HuffmanNode weight).

Lemma traverse_last_leaf (n : node) :
  forall code codes key,
    dict_get key (traverse n code codes) =
    match dict_get key (rev (leaf_codes n code)) with
    | Some c => Some c
    | None => dict_get key codes
    end.
Proof.
  induction n as [s p l r IHl IHr] using HuffmanNode_induction.
  intros code codes key. destruct s as [s|]; simpl.
  - destruct (String.eqb_spec s key) as [->|Hne].
    + apply dict_get_set_same.
    + apply dict_get_set_other. exact Hne.
  - rewrite rev_app_distr, dict_get_app.
    destruct r as [nr|]; simpl in *.
    + rewrite IHr.
      destruct (dict_get key (rev (leaf_codes nr (code +++ "1"))));
        [reflexivity|].
      destruct l as [nl|]; simpl in *; [apply IHl | reflexivity].
    + destruct l as [nl|]; simpl in *; [apply IHl | reflexivity].
Qed.

(** X16.  When a symbol labels several leaves, the table keeps one entry for
    it, with the path of the leaf visited last, the rightmost one: looking a
    symbol up in the table is looking it up in the list of leaves read from
    the right. *)
Theorem repeated_symbol_keeps_last_leaf (tree : node) (key : string) :
  exists table,
    generate_huffman_codes (Some tree) = Ok table /\
    dict_get key table = dict_get key (rev (leaf_codes tree "")).
Proof.
  exists (traverse tree "" []). split; [reflexivity|].
  rewrite traverse_last_leaf.
  destruct (dict_get key (rev (leaf_codes tree ""))); reflexivity.
Qed.

(** X17.  With the table of a tree, whatever the encoder returns consists of
    the characters ['0'] and ['1'] only. *)
Theorem encode_string_writes_binary (tree : node) (table : dict)
    (s bits : string) :
  generate_huffman_codes (Some tree) = Ok table ->
  encode_string s table = Ok bits ->
  binary_digits bits.
Proof.
  intros [= <-] Henc.
  pose proof (encode_loop_ok_known _ _ _ Henc) as Hall.
  unfold encode_string in Henc.
  rewrite encode_loop_known in Henc by exact Hall.
  injection Henc as <-. simpl.
  destruct (generate_table tree) as [Hkeys [_ Hreach]].
  clear -Hall Hkeys Hreach.
  induction s as [|c s IH]; simpl in *; [exact I|].
  destruct Hall as [Hc Hall].
  apply binary_digits_concat; [|apply IH; exact Hall].
  unfold codeword_of. apply dict_mem_get in Hc. destruct Hc as [code Hcode].
  rewrite Hcode. apply dict_get_In in Hcode; [|exact Hkeys].
  apply (reaches_binary_digits (Hreach _ _ Hcode)).
Qed.

(** X18.  Over an alphabet of at least two symbols the code is uniquely
    decodable: two strings with the same encoding are the same string. *)
Theorem encode_string_injective (symbols : list string)
    (probs : list weight) (tree : node) (table : dict) (s1 s2 bits : string) :
  build_huffman_tree weight_lt weight_add symbols probs = Ok (Some tree) ->
  generate_huffman_codes (Some tree) = Ok table ->
  2 <= List.length symbols ->
  encode_string s1 table = Ok bits ->
  encode_string s2 table = Ok bits ->
  s1 = s2.
Proof.
  intros Hbuild [= <-] Htwo H1 H2.
  assert (Hroot : symbol tree = None).
  { destruct (@build_shape _ _ _ _ _ _ Hbuild) as [Hlen _].
    destruct (@build_huffman_tree_ok _ weight_lt weight_add symbols probs
                Hlen) as [tree' [Hbuild' [_ Hsym]]].
    - destruct symbols; [simpl in Htwo; lia | discriminate].
    - rewrite Hbuild in Hbuild'. injection Hbuild' as <-. apply Hsym, Htwo. }
  destruct (@round_trip_tree _ tree s1 Hroot (encode_loop_ok_known _ _ _ H1))
    as [e1 [He1 Hd1]].
  destruct (@round_trip_tree _ tree s2 Hroot (encode_loop_ok_known _ _ _ H2))
    as [e2 [He2 Hd2]].
  congruence.
Qed.

End RepeatedSymbols.

(** ** The further properties at concrete inputs *)

(** The tree and the table of the worked example. *)
Definition example_tree : float_tree :=
  Node None 1%float
    (Some (Node (Some "A") 0.5%float None None))
    (Some (Node None 0.5%float
             (Some (Node (Some "B") 0.25%float None None))
             (Some (Node None 0.25%float
                      (Some (Node (Some "C") 0.125%float None None))
                      (Some (Node (Some "D") 0.125%float None None)))))).

Definition example_table : dict :=
  [("A", "0"); ("B", "10"); ("C", "110"); ("D", "111")].

Lemma example_build :
  build_float example_symbols example_probs = Ok (Some example_tree).
Proof. vm_compute. reflexivity. Defined.

Lemma example_symbols_distinct : NoDup example_symbols.
Proof.
  unfold example_symbols.
  repeat constructor; simpl; intuition discriminate.
Defined.

(** The logarithm of a power of two, read off its exponent; on these
    arguments it is the value of [math.log2], which is exact there. *)
Definition float_of_Z (z : Z) : float :=
  if (z <? 0)%Z then (- PrimFloat.of_uint63 (Uint63.of_Z (- z)))%float
  else PrimFloat.of_uint63 (Uint63.of_Z z).

Definition log2_of_power_of_two (p : float) : float :=
  float_of_Z (snd (Z.frexp p) - 1).

Lemma built_tree_is_proper_witness : proper PrimFloat.add example_tree.
Proof.
  apply (@built_tree_is_proper float PrimFloat.ltb PrimFloat.add
           example_symbols example_probs example_tree).
  exact example_build.
Defined.

Lemma built_tree_leaves_witness :
  Permutation (weighted_leaves example_tree)
              (combine example_symbols example_probs) /\
  S (count_parents example_tree) = List.length example_symbols.
Proof.
  apply (@built_tree_leaves float PrimFloat.ltb PrimFloat.add
           example_symbols example_probs example_tree).
  exact example_build.
Defined.

Lemma codeword_length_bound_witness :
  S (String.length "110") <= List.length example_symbols.
Proof.
  apply (@codeword_length_bound float PrimFloat.ltb PrimFloat.add
           example_symbols example_probs example_tree example_table "C").
  - exact example_build.
  - reflexivity.
  - simpl. auto.
Defined.

Lemma table_lists_leaves_witness :
  example_table = leaf_codes example_tree "" /\
  dict_keys example_table = leaf_symbols example_tree /\
  (forall k path,
     reaches example_tree path k <-> dict_get k example_table = Some path).
Proof.
  apply (@table_lists_leaves float PrimFloat.ltb PrimFloat.add
           example_symbols example_probs example_tree example_table).
  - exact example_build.
  - reflexivity.
  - exact example_symbols_distinct.
Defined.

Lemma exact_kraft_sum_of_table_witness :
  (exact_kraft_sum example_table <= 1)%Q /\
  (NoDup example_symbols -> (exact_kraft_sum example_table == 1)%Q).
Proof.
  apply (@exact_kraft_sum_of_table float PrimFloat.ltb PrimFloat.add
           example_symbols example_probs example_tree example_table).
  - exact example_build.
  - reflexivity.
Defined.

Lemma decode_string_append_witness :
  decode_string ("0" +++ "10") tree_ABC =
  match decode_string "10" tree_ABC with
  | Ok s2 => Ok ("A" +++ s2)
  | Raise e => Raise e
  end.
Proof.
  apply (@decode_string_append float tree_ABC "0" "10" "A").
  reflexivity.
Defined.

Lemma decode_string_accepts_binary_only_witness : binary_digits "010".
Proof.
  apply (@decode_string_accepts_binary_only float tree_ABC "010" "AB").
  reflexivity.
Defined.

Lemma decode_built_tree_outcomes_witness :
  (exists s, decode_string "01101" example_tree = Ok s) \/
  decode_string "01101" example_tree = Raise ValueError_incomplete.
Proof.
  apply (@decode_built_tree_outcomes float PrimFloat.ltb PrimFloat.add
           example_symbols example_probs example_tree "01101").
  - exact example_build.
  - simpl. lia.
  - simpl. intuition.
Defined.

Lemma encode_after_decode_witness :
  encode_string "ABD" example_table = Ok "010111".
Proof.
  apply (@encode_after_decode float PrimFloat.ltb PrimFloat.add
           example_symbols example_probs example_tree example_table
           "010111" "ABD").
  - exact example_build.
  - reflexivity.
  - exact example_symbols_distinct.
  - unfold example_symbols.
    repeat constructor; eexists; unfold str_of_char; reflexivity.
  - reflexivity.
Defined.

Lemma calculate_entropy_skips_zeros_witness :
  calculate_entropy log2_of_power_of_two [0.5; 0; 0.5]%float =
  calculate_entropy log2_of_power_of_two
    (filter (fun p => (0 <? p)%float) [0.5; 0; 0.5]%float).
Proof.
  apply (@calculate_entropy_skips_zeros log2_of_power_of_two
           [0.5; 0; 0.5]%float).
  repeat constructor; unfold negative; vm_compute; discriminate.
Defined.

Lemma calculate_entropy_calls_log2_on_positives_witness :
  calculate_entropy log2_of_power_of_two [0.5; 0; 0.5]%float =
  calculate_entropy
    (fun p => if (0 <? p)%float then log2_of_power_of_two p else nan)
    [0.5; 0; 0.5]%float.
Proof.
  apply (@calculate_entropy_calls_log2_on_positives log2_of_power_of_two
           (fun p => if (0 <? p)%float then log2_of_power_of_two p else nan)
           [0.5; 0; 0.5]%float).
  intros p Hp. rewrite Hp. reflexivity.
Defined.

Lemma encode_string_writes_binary_witness : binary_digits "010111".
Proof.
  apply (@encode_string_writes_binary float example_tree example_table
           "ABD" "010111"); reflexivity.
Defined.

Lemma encode_string_injective_witness :
  encode_string "ABD" example_table = Ok "010111" /\ "ABD" = "ABD".
Proof.
  split; [reflexivity|].
  apply (@encode_string_injective float PrimFloat.ltb PrimFloat.add
           example_symbols example_probs example_tree example_table
           "ABD" "ABD" "010111").
  - exact example_build.
  - reflexivity.
  - simpl. lia.
  - reflexivity.
  - reflexivity.
Defined.

(** The metrics of the worked example: average length and entropy are both
    [1.75], the redundancy is [0.0] and the Kraft sum is [1.0]. *)
Example worked_example_metrics :
  code_metrics log2_of_power_of_two example_symbols example_probs =
  Ok (mk_report example_table 1.75 1.75 0 true 1).
Proof. vm_compute. reflexivity. Qed.
